(** * clickplay: the audio session of [src/app/page.tsx]

    A shallow embedding of the [AudioPlayer] class and of the handlers of the
    [Home] component.  The browser objects the code drives (audio context,
    buffer source nodes, stream destinations, audio elements, media
    recorders, microphone streams, object URLs) live in an explicit store;
    every [await] of the source is a suspension point: the function is split
    there, the suspended call is kept in a task table, and the completion of
    the awaited platform operation is a separate transition, so that other
    handlers may run in between exactly as on the event loop.

    What the browser does is not in the source; the store follows the Web
    Audio and MediaStream Recording interfaces:
    - [start()] on a source node that was started, and [stop()] on one that
      never was, throw InvalidStateError; a second [stop()] changes nothing;
    - [ended] is dispatched at most once per source node: when its buffer
      runs out ([Ended]), and, on platforms that do so, after a [stop()]
      ([EndedAfterStop]); both run the same [onended] callback;
    - [MediaRecorder.stop()] does nothing on an inactive recorder; on a
      recording one it makes it inactive and queues one task that fires
      [dataavailable] with the data not yet delivered and then [stop];
    - a recorder may deliver [dataavailable] at any time while it records;
    - a recorder made on a stream just granted can be started;
    - whether a context can be constructed, a sink bound, a URL fetched,
      read and decoded, and the microphone granted, is the platform's
      answer, carried by the transition. *)

From stdpp Require Import base option list strings.

Open Scope string_scope.
Open Scope list_scope.
Open Scope nat_scope.

(** ** Data *)

(** Errors a call of the source can see. *)
Inductive Error :=
  | NotInitialized      (* new Error("AudioContext not initialized") *)
  | ContextError        (* new AudioContext() threw *)
  | SinkError           (* audio.setSinkId(id) rejected *)
  | FetchError          (* fetch(url) rejected *)
  | BodyError           (* response.arrayBuffer() rejected *)
  | DecodeError         (* decodeAudioData(buf) rejected *)
  | PermissionError     (* getUserMedia rejected *)
  | InvalidStateError   (* start/stop on a node in the wrong state *)
  | TypeError.          (* member access on null *)

(** Outcome of a synchronous run: the value returned or the exception. *)
Inductive Result (A : Type) :=
  | Returned (a : A)
  | Threw (e : Error).
Arguments Returned {A} a.
Arguments Threw {A} e.

(** What the caller of an [async] function holds after one run of it. *)
Inductive Promise (A : Type) :=
  | Resolved (a : A)
  | Rejected (e : Error)
  | Pending (t : nat).
Arguments Resolved {A} a.
Arguments Rejected {A} e.
Arguments Pending {A} t.

Definition Bytes := list Byte.byte.
Definition Pcm := list Z.

(** A [Blob]: its bytes and its declared MIME type. *)
Record Blob := { b_data : Bytes; b_type : string }.

(** An audio URL: a path of the site, or an object URL minted by
    [URL.createObjectURL] (its index in the URL store). *)
Inductive Url :=
  | SiteUrl (path : string)
  | ObjectUrl (k : nat).

(** Where a source node is connected: [audioContext.destination] of context
    [c], or the [MediaStreamAudioDestinationNode] number [d]. *)
Inductive Output :=
  | ContextDestination (c : nat)
  | StreamDestination (d : nat).

(** [AudioBufferSourceNode]. *)
Record SourceNode := {
  n_buffer : option Pcm;
  n_connected : list Output;
  n_started : bool;          (* start() was called *)
  n_stopped : bool;          (* stop() was called *)
  n_ended : bool;            (* the `ended` event has been dispatched *)
  n_onended : bool           (* the handler of handlePlayClick is attached *)
}.

(** [HTMLAudioElement] made by [new Audio()]. *)
Record AudioElement := {
  a_srcObject : option nat;  (* stream of the destination node *)
  a_sinkId : string;         (* the empty string is the default device *)
  a_playing : bool
}.

Inductive RecorderState := Inactive | Recording.

(** [MediaRecorder]. *)
Record MediaRecorder := {
  r_stream : nat;
  r_state : RecorderState;
  r_ondataavailable : bool;  (* the handler of handleStartRecording is set *)
  r_onstop : bool;           (* idem *)
  r_stopping : bool          (* stop() queued the task that fires `stop` *)
}.

(** [MediaStream] of the microphone. *)
Record MediaStream := { st_live : bool }.

(** The fields of [class AudioPlayer]. *)
Record AudioPlayer := {
  audioContext : option nat;
  audioSource : option nat;
  destination : option nat
}.

(** The browser side: every object the code created, by kind; an object is
    named by its index. *)
Record Platform := {
  contexts : nat;                    (* AudioContexts constructed *)
  destinations : list nat;           (* destination nodes: their context *)
  audios : list AudioElement;
  sources : list SourceNode;
  recorders : list MediaRecorder;
  streams : list MediaStream;
  object_urls : list Blob            (* URL.createObjectURL store *)
}.

(** State and refs of the [Home] component. *)
Record Home := {
  isPlaying : bool;
  selectedOutput : string;
  recordings : list Url;
  isRecording : bool;
  audioSourceRef : option nat;
  mediaRecorderRef : option nat;
  audioChunksRef : list Blob
}.

Inductive Caller := Direct | PlayClick.

(** The [await] at which a [playAudio] call is suspended. *)
Inductive PlayStage :=
  | AwaitFetch (url : Url)           (* await fetch(audioUrl) *)
  | AwaitBody                        (* await response.arrayBuffer() *)
  | AwaitDecode (buf : Bytes).       (* await decodeAudioData(arrayBuffer) *)

(** A suspended call. *)
Inductive Task :=
  | InitTask (a : nat) (dev : string)          (* init at await setSinkId *)
  | PlayTask (stage : PlayStage) (by_ : Caller)
  | MicTask                                    (* await getUserMedia *)
  | Settled.

Record World := {
  player : AudioPlayer;
  platform : Platform;
  home : Home;
  tasks : list Task
}.

(** ** Field updates *)

Definition with_player (f : AudioPlayer → AudioPlayer) (w : World) : World :=
  {| player := f (player w); platform := platform w; home := home w; tasks := tasks w |}.
Definition with_platform (f : Platform → Platform) (w : World) : World :=
  {| player := player w; platform := f (platform w); home := home w; tasks := tasks w |}.
Definition with_home (f : Home → Home) (w : World) : World :=
  {| player := player w; platform := platform w; home := f (home w); tasks := tasks w |}.
Definition with_tasks (f : list Task → list Task) (w : World) : World :=
  {| player := player w; platform := platform w; home := home w; tasks := f (tasks w) |}.

Definition set_audioContext (v : option nat) (p : AudioPlayer) : AudioPlayer :=
  {| audioContext := v; audioSource := audioSource p; destination := destination p |}.
Definition set_audioSource (v : option nat) (p : AudioPlayer) : AudioPlayer :=
  {| audioContext := audioContext p; audioSource := v; destination := destination p |}.
Definition set_destination (v : option nat) (p : AudioPlayer) : AudioPlayer :=
  {| audioContext := audioContext p; audioSource := audioSource p; destination := v |}.

Definition set_contexts (v : nat) (p : Platform) : Platform :=
  {| contexts := v; destinations := destinations p; audios := audios p;
     sources := sources p; recorders := recorders p; streams := streams p;
     object_urls := object_urls p |}.
Definition set_destinations (v : list nat) (p : Platform) : Platform :=
  {| contexts := contexts p; destinations := v; audios := audios p;
     sources := sources p; recorders := recorders p; streams := streams p;
     object_urls := object_urls p |}.
Definition set_audios (v : list AudioElement) (p : Platform) : Platform :=
  {| contexts := contexts p; destinations := destinations p; audios := v;
     sources := sources p; recorders := recorders p; streams := streams p;
     object_urls := object_urls p |}.
Definition set_sources (v : list SourceNode) (p : Platform) : Platform :=
  {| contexts := contexts p; destinations := destinations p; audios := audios p;
     sources := v; recorders := recorders p; streams := streams p;
     object_urls := object_urls p |}.
Definition set_recorders (v : list MediaRecorder) (p : Platform) : Platform :=
  {| contexts := contexts p; destinations := destinations p; audios := audios p;
     sources := sources p; recorders := v; streams := streams p;
     object_urls := object_urls p |}.
Definition set_streams (v : list MediaStream) (p : Platform) : Platform :=
  {| contexts := contexts p; destinations := destinations p; audios := audios p;
     sources := sources p; recorders := recorders p; streams := v;
     object_urls := object_urls p |}.
Definition set_object_urls (v : list Blob) (p : Platform) : Platform :=
  {| contexts := contexts p; destinations := destinations p; audios := audios p;
     sources := sources p; recorders := recorders p; streams := streams p;
     object_urls := v |}.

Definition set_isPlaying (v : bool) (h : Home) : Home :=
  {| isPlaying := v; selectedOutput := selectedOutput h; recordings := recordings h;
     isRecording := isRecording h; audioSourceRef := audioSourceRef h;
     mediaRecorderRef := mediaRecorderRef h; audioChunksRef := audioChunksRef h |}.
Definition set_selectedOutput (v : string) (h : Home) : Home :=
  {| isPlaying := isPlaying h; selectedOutput := v; recordings := recordings h;
     isRecording := isRecording h; audioSourceRef := audioSourceRef h;
     mediaRecorderRef := mediaRecorderRef h; audioChunksRef := audioChunksRef h |}.
Definition set_recordings (v : list Url) (h : Home) : Home :=
  {| isPlaying := isPlaying h; selectedOutput := selectedOutput h; recordings := v;
     isRecording := isRecording h; audioSourceRef := audioSourceRef h;
     mediaRecorderRef := mediaRecorderRef h; audioChunksRef := audioChunksRef h |}.
Definition set_isRecording (v : bool) (h : Home) : Home :=
  {| isPlaying := isPlaying h; selectedOutput := selectedOutput h; recordings := recordings h;
     isRecording := v; audioSourceRef := audioSourceRef h;
     mediaRecorderRef := mediaRecorderRef h; audioChunksRef := audioChunksRef h |}.
Definition set_audioSourceRef (v : option nat) (h : Home) : Home :=
  {| isPlaying := isPlaying h; selectedOutput := selectedOutput h; recordings := recordings h;
     isRecording := isRecording h; audioSourceRef := v;
     mediaRecorderRef := mediaRecorderRef h; audioChunksRef := audioChunksRef h |}.
Definition set_mediaRecorderRef (v : option nat) (h : Home) : Home :=
  {| isPlaying := isPlaying h; selectedOutput := selectedOutput h; recordings := recordings h;
     isRecording := isRecording h; audioSourceRef := audioSourceRef h;
     mediaRecorderRef := v; audioChunksRef := audioChunksRef h |}.
Definition set_audioChunksRef (v : list Blob) (h : Home) : Home :=
  {| isPlaying := isPlaying h; selectedOutput := selectedOutput h; recordings := recordings h;
     isRecording := isRecording h; audioSourceRef := audioSourceRef h;
     mediaRecorderRef := mediaRecorderRef h; audioChunksRef := v |}.

Definition set_n_stopped (v : bool) (n : SourceNode) : SourceNode :=
  {| n_buffer := n_buffer n; n_connected := n_connected n; n_started := n_started n;
     n_stopped := v; n_ended := n_ended n; n_onended := n_onended n |}.
Definition set_n_started (v : bool) (n : SourceNode) : SourceNode :=
  {| n_buffer := n_buffer n; n_connected := n_connected n; n_started := v;
     n_stopped := n_stopped n; n_ended := n_ended n; n_onended := n_onended n |}.
Definition set_n_ended (v : bool) (n : SourceNode) : SourceNode :=
  {| n_buffer := n_buffer n; n_connected := n_connected n; n_started := n_started n;
     n_stopped := n_stopped n; n_ended := v; n_onended := n_onended n |}.
Definition set_n_onended (v : bool) (n : SourceNode) : SourceNode :=
  {| n_buffer := n_buffer n; n_connected := n_connected n; n_started := n_started n;
     n_stopped := n_stopped n; n_ended := n_ended n; n_onended := v |}.
Definition set_n_buffer (v : option Pcm) (n : SourceNode) : SourceNode :=
  {| n_buffer := v; n_connected := n_connected n; n_started := n_started n;
     n_stopped := n_stopped n; n_ended := n_ended n; n_onended := n_onended n |}.
Definition add_n_connected (o : Output) (n : SourceNode) : SourceNode :=
  {| n_buffer := n_buffer n; n_connected := n_connected n ++ [o]; n_started := n_started n;
     n_stopped := n_stopped n; n_ended := n_ended n; n_onended := n_onended n |}.

Definition set_r_state (v : RecorderState) (r : MediaRecorder) : MediaRecorder :=
  {| r_stream := r_stream r; r_state := v; r_ondataavailable := r_ondataavailable r;
     r_onstop := r_onstop r; r_stopping := r_stopping r |}.
Definition set_r_ondataavailable (v : bool) (r : MediaRecorder) : MediaRecorder :=
  {| r_stream := r_stream r; r_state := r_state r; r_ondataavailable := v;
     r_onstop := r_onstop r; r_stopping := r_stopping r |}.
Definition set_r_onstop (v : bool) (r : MediaRecorder) : MediaRecorder :=
  {| r_stream := r_stream r; r_state := r_state r; r_ondataavailable := r_ondataavailable r;
     r_onstop := v; r_stopping := r_stopping r |}.
Definition set_r_stopping (v : bool) (r : MediaRecorder) : MediaRecorder :=
  {| r_stream := r_stream r; r_state := r_state r; r_ondataavailable := r_ondataavailable r;
     r_onstop := r_onstop r; r_stopping := v |}.

(** ** Synchronous code: state, exceptions, try/catch

    A run of synchronous code transforms the world and either returns or
    throws; what it changed before throwing stays changed. *)

Definition M (A : Type) : Type := World → Result A * World.

#[global] Instance M_ret : MRet M := λ A a w, (Returned a, w).
#[global] Instance M_bind : MBind M := λ A B k m w,
  match m w with
  | (Returned a, w') => k a w'
  | (Threw e, w') => (Threw e, w')
  end.

Definition throw {A} (e : Error) : M A := λ w, (Threw e, w).
Definition try_catch {A} (body : M A) (handler : Error → M A) : M A := λ w,
  match body w with
  | (Returned a, w') => (Returned a, w')
  | (Threw e, w') => handler e w'
  end.
Definition read {A} (f : World → A) : M A := λ w, (Returned (f w), w).
Definition update (f : World → World) : M unit := λ w, (Returned tt, f w).
Definition skip : M unit := mret tt.

(** JavaScript truthiness of [outputDeviceId?: string]: [undefined] and the
    empty string are falsy. *)
Definition truthy (s : option string) : bool :=
  match s with
  | Some x => negb (String.eqb x "")
  | None => false
  end.

(** ** The platform operations the source calls *)

(** [new AudioContext()]; [ok] is whether the platform can construct it. *)
Definition new_AudioContext (ok : bool) : M nat := λ w,
  if ok then
    (Returned (contexts (platform w)),
     with_platform (set_contexts (S (contexts (platform w)))) w)
  else (Threw ContextError, w).

(** [ctx.createMediaStreamDestination()]. *)
Definition createMediaStreamDestination (c : nat) : M nat := λ w,
  (Returned (length (destinations (platform w))),
   with_platform (set_destinations (destinations (platform w) ++ [c])) w).

(** [new Audio()]: no source, default sink, paused. *)
Definition new_Audio : M nat := λ w,
  (Returned (length (audios (platform w))),
   with_platform (set_audios (audios (platform w) ++
     [{| a_srcObject := None; a_sinkId := ""; a_playing := false |}])) w).

Definition alter_audio (f : AudioElement → AudioElement) (a : nat) : World → World :=
  with_platform (λ p, set_audios (alter f a (audios p)) p).
Definition alter_source (f : SourceNode → SourceNode) (n : nat) : World → World :=
  with_platform (λ p, set_sources (alter f n (sources p)) p).
Definition alter_recorder (f : MediaRecorder → MediaRecorder) (r : nat) : World → World :=
  with_platform (λ p, set_recorders (alter f r (recorders p)) p).

(** [audio.srcObject = node.stream]. *)
Definition set_srcObject (a d : nat) : M unit :=
  update (alter_audio (λ e,
    {| a_srcObject := Some d; a_sinkId := a_sinkId e; a_playing := a_playing e |}) a).

(** What a fulfilled [audio.setSinkId(dev)] has done to the element. *)
Definition bind_sink (a : nat) (dev : string) : World → World :=
  alter_audio (λ e,
    {| a_srcObject := a_srcObject e; a_sinkId := dev; a_playing := a_playing e |}) a.

(** [audio.play()]. *)
Definition audio_play (a : nat) : M unit :=
  update (alter_audio (λ e,
    {| a_srcObject := a_srcObject e; a_sinkId := a_sinkId e; a_playing := true |}) a).

(** [ctx.createBufferSource()]. *)
Definition createBufferSource : M nat := λ w,
  (Returned (length (sources (platform w))),
   with_platform (set_sources (sources (platform w) ++
     [{| n_buffer := None; n_connected := []; n_started := false;
         n_stopped := false; n_ended := false; n_onended := false |}])) w).

Definition source_of (w : World) (n : nat) : option SourceNode :=
  sources (platform w) !! n.
Definition recorder_of (w : World) (r : nat) : option MediaRecorder :=
  recorders (platform w) !! r.

(** [node.start(0)]: InvalidStateError when already started. *)
Definition source_start (n : nat) : M unit := λ w,
  match source_of w n with
  | Some nd =>
      if n_started nd then (Threw InvalidStateError, w)
      else (Returned tt, alter_source (set_n_started true) n w)
  | None => (Threw TypeError, w)
  end.

(** [node.stop()]: InvalidStateError when never started; otherwise the node
    is silenced (calling it again changes nothing more). *)
Definition source_stop (n : nat) : M unit := λ w,
  match source_of w n with
  | Some nd =>
      if n_started nd then (Returned tt, alter_source (set_n_stopped true) n w)
      else (Threw InvalidStateError, w)
  | None => (Threw TypeError, w)
  end.

(** A node sounds when started, not stopped, and its buffer has not run out. *)
Definition sounding (nd : SourceNode) : bool :=
  n_started nd && negb (n_stopped nd) && negb (n_ended nd).

Definition playing (w : World) (n : nat) : bool :=
  match source_of w n with
  | Some nd => sounding nd
  | None => false
  end.

(** [new MediaRecorder(stream)]. *)
Definition new_MediaRecorder (st : nat) : M nat := λ w,
  (Returned (length (recorders (platform w))),
   with_platform (set_recorders (recorders (platform w) ++
     [{| r_stream := st; r_state := Inactive; r_ondataavailable := false;
         r_onstop := false; r_stopping := false |}])) w).

(** [recorder.start()]: InvalidStateError unless inactive. *)
Definition recorder_start (r : nat) : M unit := λ w,
  match recorder_of w r with
  | Some rc =>
      match r_state rc with
      | Inactive => (Returned tt, alter_recorder (set_r_state Recording) r w)
      | Recording => (Threw InvalidStateError, w)
      end
  | None => (Threw TypeError, w)
  end.

(** [recorder.stop()]: nothing when inactive; otherwise the recorder becomes
    inactive and a task is queued that fires [dataavailable] with what is
    left, then [stop]. *)
Definition recorder_stop (r : nat) : M unit := λ w,
  match recorder_of w r with
  | Some rc =>
      match r_state rc with
      | Inactive => (Returned tt, w)
      | Recording =>
          (Returned tt,
           alter_recorder (λ x, set_r_stopping true (set_r_state Inactive x)) r w)
      end
  | None => (Threw TypeError, w)
  end.

(** A granted [getUserMedia({audio: true})] hands over a new live stream. *)
Definition grant_stream : M nat := λ w,
  (Returned (length (streams (platform w))),
   with_platform (set_streams (streams (platform w) ++ [{| st_live := true |}])) w).

(** [new Blob(parts, {type})]: the bytes of the parts, in order. *)
Definition new_Blob (parts : list Blob) (type : string) : Blob :=
  {| b_data := concat (map b_data parts); b_type := type |}.

(** [URL.createObjectURL(blob)]. *)
Definition createObjectURL (b : Blob) : M Url := λ w,
  (Returned (ObjectUrl (length (object_urls (platform w)))),
   with_platform (set_object_urls (object_urls (platform w) ++ [b])) w).

(** ** Suspended calls *)

Definition suspend {A} (t : Task) (w : World) : Promise A * World :=
  (Pending (length (tasks w)), with_tasks (λ ts, ts ++ [t]) w).
Definition settle (t : nat) : World → World :=
  with_tasks (λ ts, <[t := Settled]> ts).
Definition advance (t : nat) (k : Task) : World → World :=
  with_tasks (λ ts, <[t := k]> ts).

(** The promise an [async] function that ran to its end settles with. *)
Definition finish {A} (r : Result A * World) : Promise A * World :=
  match r with
  | (Returned a, w) => (Resolved a, w)
  | (Threw e, w) => (Rejected e, w)
  end.

(** ** [class AudioPlayer] *)

(** [constructor()]. *)
Definition AudioPlayer_new : AudioPlayer :=
  {| audioContext := None; audioSource := None; destination := None |}.

(** [init] up to [await audio.setSinkId(outputDeviceId)]: the context is
    created if absent; with a truthy device id a new destination node is made
    and stored in [this.destination], and an audio element is fed from its
    stream.  Returns the element whose sink is being bound, if any. *)
Definition init_enter (outputDeviceId : option string) (ctor_ok : bool)
  : M (option nat) :=
  try_catch
    (ctx ← read (audioContext ∘ player);
     c ← match ctx with
         | None =>
             c ← new_AudioContext ctor_ok;
             update (with_player (set_audioContext (Some c)));;
             mret c
         | Some c => mret c
         end;
     if truthy outputDeviceId then
       audioDestination ← createMediaStreamDestination c;
       update (with_player (set_destination (Some audioDestination)));;
       audio ← new_Audio;
       set_srcObject audio audioDestination;;
       mret (Some audio)
     else mret None)
    (λ error, throw error).

Definition init (outputDeviceId : option string) (ctor_ok : bool) (w : World)
  : Promise unit * World :=
  match init_enter outputDeviceId ctor_ok w with
  | (Returned (Some audio), w') =>
      suspend (InitTask audio (default "" outputDeviceId)) w'
  | (Returned None, w') => (Resolved tt, w')
  | (Threw e, w') => (Rejected e, w')
  end.

(** The rest of [init] once [setSinkId] settled: [audio.play()], or the
    rejection rethrown by the catch clause. *)
Definition init_resume (t : nat) (bound : Result unit) (w : World)
  : option (Promise unit * World) :=
  match tasks w !! t with
  | Some (InitTask audio dev) =>
      Some (finish (try_catch
        (match bound with
         | Returned _ => update (bind_sink audio dev)
         | Threw e => throw e
         end;;
         audio_play audio)
        (λ error, throw error)
        (settle t w)))
  | _ => None
  end.

(** [playAudio] up to [await fetch(audioUrl)]: the context check, then the
    source held in [this.audioSource], if any, is stopped (the field keeps
    naming it). *)
Definition playAudio_enter : M unit :=
  ctx ← read (audioContext ∘ player);
  match ctx with
  | None => throw NotInitialized
  | Some _ =>
      try_catch
        (src ← read (audioSource ∘ player);
         match src with
         | Some n => source_stop n
         | None => skip
         end)
        (λ error, throw error)
  end.

(** [by_] records who awaits the promise. *)
Definition playAudio (audioUrl : Url) (by_ : Caller) (w : World)
  : Promise nat * World :=
  match playAudio_enter w with
  | (Returned _, w') => suspend (PlayTask (AwaitFetch audioUrl) by_) w'
  | (Threw e, w') => (Rejected e, w')
  end.

(** After [await fetch(audioUrl)]. *)
Definition playAudio_fetched (t : nat) (response : Result unit) (w : World)
  : option (Promise nat * World) :=
  match tasks w !! t with
  | Some (PlayTask (AwaitFetch _) c) =>
      match response with
      | Returned _ => Some (Pending t, advance t (PlayTask AwaitBody c) w)
      | Threw e => Some (Rejected e, settle t w)
      end
  | _ => None
  end.

(** After [await response.arrayBuffer()]: [this.audioContext] is read again
    for [decodeAudioData]. *)
Definition playAudio_body (t : nat) (arrayBuffer : Result Bytes) (w : World)
  : option (Promise nat * World) :=
  match tasks w !! t with
  | Some (PlayTask AwaitBody c) =>
      match arrayBuffer with
      | Returned buf =>
          match audioContext (player w) with
          | Some _ => Some (Pending t, advance t (PlayTask (AwaitDecode buf) c) w)
          | None => Some (Rejected TypeError, settle t w)
          end
      | Threw e => Some (Rejected e, settle t w)
      end
  | _ => None
  end.

(** Lines 51-60: a new source node is stored in [this.audioSource], given
    the decoded buffer, connected to [this.destination || ctx.destination]
    and started. *)
Definition playAudio_finish (audioBuffer : Pcm) : M nat :=
  try_catch
    (ctx ← read (audioContext ∘ player);
     match ctx with
     | None => throw TypeError
     | Some c =>
         n ← createBufferSource;
         update (with_player (set_audioSource (Some n)));;
         update (alter_source (set_n_buffer (Some audioBuffer)) n);;
         d ← read (destination ∘ player);
         update (alter_source (add_n_connected
           (match d with
            | Some d => StreamDestination d
            | None => ContextDestination c
            end)) n);;
         source_start n;;
         mret n
     end)
    (λ error, throw error).

(** After [await decodeAudioData(arrayBuffer)]. *)
Definition playAudio_decoded (t : nat) (audioBuffer : Result Pcm) (w : World)
  : option (Promise nat * World) :=
  match tasks w !! t with
  | Some (PlayTask (AwaitDecode _) c) =>
      match audioBuffer with
      | Returned pcm => Some (finish (playAudio_finish pcm (settle t w)))
      | Threw e => Some (Rejected e, settle t w)
      end
  | _ => None
  end.

Definition stopAudio : M unit :=
  src ← read (audioSource ∘ player);
  match src with
  | Some n =>
      source_stop n;;
      update (with_player (set_audioSource None))
  | None => skip
  end.

(** ** The handlers of [Home] *)

Definition Home_new : Home :=
  {| isPlaying := false; selectedOutput := ""; recordings := [];
     isRecording := false; audioSourceRef := None; mediaRecorderRef := None;
     audioChunksRef := [] |}.

(** The callback assigned to [source.onended]. *)
Definition onended_handler : World → World :=
  with_home (λ h, set_audioSourceRef None (set_isPlaying false h)).

(** [handlePlayClick] after [await audioPlayer.playAudio(audioUrl)]: the
    try branch on a resolved promise, the catch branch on a rejected one. *)
Definition handlePlayClick_then (p : Promise nat) (w : World) : World :=
  match p with
  | Resolved source =>
      alter_source (set_n_onended true) source
        (with_home (λ h, set_isPlaying true (set_audioSourceRef (Some source) h)) w)
  | Rejected _ => with_home (set_isPlaying false) w
  | Pending _ => w
  end.

(** The guard [if (!audioPlayer)] of the source never fires: the state holds
    the player made at the first render. *)
Definition handlePlayClick (audioUrl : Url) (w : World) : World :=
  let '(p, w') := playAudio audioUrl PlayClick w in
  handlePlayClick_then p w'.

(** The continuation of whoever awaits a [playAudio] promise. *)
Definition notify (c : Caller) (pw : Promise nat * World) : World :=
  match c with
  | Direct => pw.2
  | PlayClick => handlePlayClick_then pw.1 pw.2
  end.

Definition handleStopClick : M unit :=
  r ← read (audioSourceRef ∘ home);
  match r with
  | Some _ =>
      stopAudio;;
      update (with_home (set_isPlaying false));;
      update (with_home (set_audioSourceRef None))
  | None => skip
  end.

(** [handleStartRecording] up to [await getUserMedia({audio: true})]. *)
Definition handleStartRecording (w : World) : Promise unit * World :=
  suspend MicTask w.

(** Lines 146-162, with the granted stream. *)
Definition handleStartRecording_with (stream : nat) : M unit :=
  rec ← new_MediaRecorder stream;
  update (with_home (set_mediaRecorderRef (Some rec)));;
  update (with_home (set_audioChunksRef []));;
  update (alter_recorder (set_r_ondataavailable true) rec);;
  update (alter_recorder (set_r_onstop true) rec);;
  recorder_start rec;;
  update (with_home (set_isRecording true)).

(** The rest of [handleStartRecording] once [getUserMedia] settled; the
    catch clause only logs. *)
Definition handleStartRecording_resume (t : nat) (answer : Result unit) (w : World)
  : option (Promise unit * World) :=
  match tasks w !! t with
  | Some MicTask =>
      Some (finish (try_catch
        (match answer with
         | Returned _ => stream ← grant_stream; handleStartRecording_with stream
         | Threw e => throw e
         end)
        (λ error, skip)
        (settle t w)))
  | _ => None
  end.

Definition handleStopRecording : M unit :=
  r ← read (mediaRecorderRef ∘ home);
  match r with
  | Some rec =>
      recorder_stop rec;;
      update (with_home (set_isRecording false))
  | None => skip
  end.

(** The callback assigned to [ondataavailable]: push onto the array that
    [audioChunksRef.current] names when the event arrives. *)
Definition ondataavailable_handler (data : Blob) : World → World :=
  with_home (λ h, set_audioChunksRef (audioChunksRef h ++ [data]) h).

(** The callback assigned to [onstop]. *)
Definition onstop_handler : M unit :=
  chunks ← read (audioChunksRef ∘ home);
  audioUrl ← createObjectURL (new_Blob chunks "audio/wav");
  update (with_home (λ h, set_recordings (recordings h ++ [audioUrl]) h)).

(** ** Events the platform dispatches *)

(** [ended] on source node [n]: dispatched once; runs [onended] if set. *)
Definition fire_ended (n : nat) (w : World) : World :=
  match source_of w n with
  | Some nd =>
      let w' := alter_source (set_n_ended true) n w in
      if n_onended nd then onended_handler w' else w'
  | None => w
  end.

Definition fire_dataavailable (r : nat) (data : Blob) (w : World) : World :=
  match recorder_of w r with
  | Some rc => if r_ondataavailable rc then ondataavailable_handler data w else w
  | None => w
  end.

Definition fire_stop (r : nat) (w : World) : World :=
  match recorder_of w r with
  | Some rc => if r_onstop rc then (onstop_handler w).2 else w
  | None => w
  end.

(** The task queued by [recorder.stop()]: [dataavailable] with the data
    gathered since the last one, then [stop]. *)
Definition recorder_stop_task (r : nat) (data : Blob) (w : World) : World :=
  fire_stop r (fire_dataavailable r data (alter_recorder (set_r_stopping false) r w)).

(** ** The event loop

    One label per thing that can run next: a call on the player, a handler
    of the component, or the completion of a platform operation some
    suspended call awaits (with its outcome), or a platform event. *)
Inductive Label :=
  | CallInit (outputDeviceId : option string) (ctor_ok : bool)
  | CallPlayAudio (audioUrl : Url)
  | CallStopAudio
  | InitEffect (ctor_ok : bool)                 (* initAudio, on mount *)
  | SelectOutput (value : string) (ctor_ok : bool)
  | ClickPlay (audioUrl : Url)                  (* handlePlayClick *)
  | ClickStop                                   (* handleStopClick *)
  | StartRecording                              (* handleStartRecording *)
  | StopRecording                               (* handleStopRecording *)
  | SinkBound (t : nat) (outcome : Result unit)
  | Fetched (t : nat) (outcome : Result unit)
  | BodyRead (t : nat) (outcome : Result Bytes)
  | Decoded (t : nat) (outcome : Result Pcm)
  | MicAnswered (t : nat) (outcome : Result unit)
  | Ended (n : nat)                             (* the buffer of n ran out *)
  | EndedAfterStop (n : nat)                    (* `ended` for a stopped n *)
  | DataAvailable (r : nat) (data : Blob)
  | RecorderStopped (r : nat) (data : Blob).

Definition play_caller (w : World) (t : nat) : option Caller :=
  match tasks w !! t with
  | Some (PlayTask _ c) => Some c
  | _ => None
  end.

(** [None]: the label cannot happen in this world.  An exception that
    escapes a handler leaves the world as it was when thrown. *)
Definition step (l : Label) (w : World) : option World :=
  match l with
  | CallInit dev ok => Some (init dev ok w).2
  | CallPlayAudio url => Some (playAudio url Direct w).2
  | CallStopAudio => Some (stopAudio w).2
  | InitEffect ok => Some (init (Some (selectedOutput (home w))) ok w).2
  | SelectOutput v ok =>
      if String.eqb v (selectedOutput (home w)) then None
      else Some (init (Some v) ok (with_home (set_selectedOutput v) w)).2
  | ClickPlay url => Some (handlePlayClick url w)
  | ClickStop => Some (handleStopClick w).2
  | StartRecording => Some (handleStartRecording w).2
  | StopRecording => Some (handleStopRecording w).2
  | SinkBound t r => snd <$> init_resume t r w
  | Fetched t r => c ← play_caller w t; notify c <$> playAudio_fetched t r w
  | BodyRead t r => c ← play_caller w t; notify c <$> playAudio_body t r w
  | Decoded t r => c ← play_caller w t; notify c <$> playAudio_decoded t r w
  | MicAnswered t r => snd <$> handleStartRecording_resume t r w
  | Ended n => if playing w n then Some (fire_ended n w) else None
  | EndedAfterStop n =>
      match source_of w n with
      | Some nd =>
          if n_started nd && n_stopped nd && negb (n_ended nd)
          then Some (fire_ended n w) else None
      | None => None
      end
  | DataAvailable r data =>
      match recorder_of w r with
      | Some rc =>
          match r_state rc with
          | Recording => Some (fire_dataavailable r data w)
          | Inactive => None
          end
      | None => None
      end
  | RecorderStopped r data =>
      match recorder_of w r with
      | Some rc =>
          if r_stopping rc then Some (recorder_stop_task r data w) else None
      | None => None
      end
  end.

Fixpoint run (tr : list Label) (w : World) : option World :=
  match tr with
  | [] => Some w
  | l :: tr' =>
      match step l w with
      | Some w' => run tr' w'
      | None => None
      end
  end.

(** The page as first rendered: [new AudioPlayer()], initial state, null refs. *)
Definition world0 : World :=
  {| player := AudioPlayer_new;
     platform := {| contexts := 0; destinations := []; audios := []; sources := [];
                    recorders := []; streams := []; object_urls := [] |};
     home := Home_new;
     tasks := [] |}.

Definition reachable (w : World) : Prop := ∃ tr, run tr world0 = Some w.

(** ** The controls rendered by [Home] *)

Inductive Control :=
  | PlayAudioButton                     (* disabled={isPlaying} *)
  | StopAudioButton                     (* disabled={!isPlaying} *)
  | RecordingButton                     (* isRecording ? stop : start *)
  | PlayRecordingButton (index : nat).  (* recordings.map(...) *)

(** The handler a click on a control runs, if the control is there and
    enabled. *)
Definition onClick (c : Control) (w : World) : option Label :=
  match c with
  | PlayAudioButton =>
      if isPlaying (home w) then None else Some (ClickPlay (SiteUrl "/sample.mp3"))
  | StopAudioButton =>
      if isPlaying (home w) then Some ClickStop else None
  | RecordingButton =>
      Some (if isRecording (home w) then StopRecording else StartRecording)
  | PlayRecordingButton i => ClickPlay <$> recordings (home w) !! i
  end.

(** ** Observations *)

(** The source nodes that sound. *)
Definition audible (w : World) : list nat :=
  filter (λ n, playing w n = true) (seq 0 (length (sources (platform w)))).

Definition is_recording (w : World) (r : nat) : bool :=
  match recorder_of w r with
  | Some rc => match r_state rc with Recording => true | Inactive => false end
  | None => false
  end.

(** The recorders that record. *)
Definition capturing (w : World) : list nat :=
  filter (λ r, is_recording w r = true) (seq 0 (length (recorders (platform w)))).

(** Where the sound of node [n] comes out: the default device (the empty
    id) for the context's own destination, and for a stream destination the
    sink of every playing audio element fed from its stream. *)
Definition sinks_of (w : World) (o : Output) : list string :=
  match o with
  | ContextDestination _ => [""]
  | StreamDestination d =>
      omap (λ e, match a_srcObject e with
                 | Some d' => if Nat.eqb d' d && a_playing e then Some (a_sinkId e) else None
                 | None => None
                 end)
           (audios (platform w))
  end.

Definition routed_to (w : World) (n : nat) : list string :=
  match source_of w n with
  | Some nd => concat (map (sinks_of w) (n_connected nd))
  | None => []
  end.

(** ** Well-formed worlds *)

Definition task_ok (w : World) (t : Task) : Prop :=
  match t with
  | PlayTask _ _ => is_Some (audioContext (player w))
  | _ => True
  end.

Record wf (w : World) : Prop := {
  wf_context :
    match audioContext (player w) with
    | Some c => c = 0 ∧ contexts (platform w) = 1
    | None => contexts (platform w) = 0
    end;
  wf_source : ∀ n, audioSource (player w) = Some n → n < length (sources (platform w));
  wf_started : Forall (λ nd, n_started nd = true) (sources (platform w));
  wf_play : Forall (task_ok w) (tasks w);
  wf_blobs : Forall (λ b, b_type b = "audio/wav") (object_urls (platform w));
  wf_recordings :
    Forall (λ u, ∃ k, u = ObjectUrl k ∧ k < length (object_urls (platform w)))
           (recordings (home w));
  wf_streams : Forall (λ st, st_live st = true) (streams (platform w));
  wf_recorders :
    Forall (λ rc, r_ondataavailable rc = true ∧ r_onstop rc = true ∧
                  r_stream rc < length (streams (platform w)))
           (recorders (platform w));
  wf_recorder_ref : ∀ r, mediaRecorderRef (home w) = Some r →
    r < length (recorders (platform w));
  wf_isRecording : isRecording (home w) = true →
    ∃ r, mediaRecorderRef (home w) = Some r ∧
         ∃ rc, recorder_of w r = Some rc ∧ r_state rc = Recording
}.

(** ** Scenarios used below *)

Definition sample : Url := SiteUrl "/sample.mp3".
Definition webm (bs : Bytes) : Blob := {| b_data := bs; b_type := "audio/webm" |}.
Definition ok : Result unit := Returned tt.

(** A play that ran to its end. *)
Definition played (t : nat) (pcm : Pcm) : list Label :=
  [Fetched t ok; BodyRead t (Returned []); Decoded t (Returned pcm)].

(** The world a trace leads to from the first render (for a trace that
    runs: [runnable]). *)
Definition after (tr : list Label) : World := default world0 (run tr world0).
Definition runnable (tr : list Label) : bool :=
  match run tr world0 with
  | Some _ => true
  | None => false
  end.

(** Two clicks on play buttons before either fetch came back. *)
Definition tr_two_clicks : list Label :=
  [InitEffect true; ClickPlay (SiteUrl "/a.mp3"); ClickPlay (SiteUrl "/b.mp3")]
  ++ played 0 [1%Z] ++ played 1 [2%Z].
(** One clip is sounding. *)
Definition tr_sounding : list Label := [InitEffect true; ClickPlay sample] ++ played 0 [1%Z].
(** ... and a second play begun whose fetch fails. *)
Definition tr_second_play_fails : list Label :=
  tr_sounding ++ [CallPlayAudio (SiteUrl "/missing.mp3"); Fetched 1 (Threw FetchError)].
(** A recording with one fragment so far. *)
Definition tr_recording : list Label :=
  [StartRecording; MicAnswered 0 ok; DataAvailable 0 (webm [Byte.x01])].
(** A recording just started, and the same recording stopped, the stop
    task done. *)
Definition tr_started : list Label := [StartRecording; MicAnswered 0 ok].
Definition tr_recorded : list Label :=
  tr_started ++ [StopRecording; RecorderStopped 0 (webm [Byte.x01])].
(** A second start while the first recording runs. *)
Definition tr_second_start : list Label :=
  tr_recording ++ [StartRecording; MicAnswered 1 ok].
(** Two clicks on the recording button before the microphone answered. *)
Definition tr_double_start : list Label :=
  [StartRecording; StartRecording; MicAnswered 0 ok; MicAnswered 1 ok].
(** Device "D" selected and bound, then the default output selected again,
    then a play. *)
Definition tr_back_to_default : list Label :=
  [InitEffect true; SelectOutput "D" true; SinkBound 0 ok; SelectOutput "" true;
   ClickPlay sample] ++ played 1 [1%Z].

(** Device "D" selected and bound, then device "E", then a play. *)
Definition tr_other_device : list Label :=
  [InitEffect true; SelectOutput "D" true; SinkBound 0 ok; SelectOutput "E" true;
   SinkBound 1 ok; ClickPlay sample] ++ played 2 [1%Z].

(** ** Relations used in the proofs *)

(** Once a node exists, the code only ever stops it and the platform only
    ever ends it: buffer, connections, start and callback stay as they were
    made. *)
Definition node_le (a b : SourceNode) : Prop :=
  n_buffer b = n_buffer a ∧ n_connected b = n_connected a ∧
  n_started b = n_started a ∧ n_onended b = n_onended a ∧
  (n_stopped a = true → n_stopped b = true) ∧
  (n_ended a = true → n_ended b = true).

Definition sources_le (l l' : list SourceNode) : Prop :=
  ∀ n a, l !! n = Some a → ∃ b, l' !! n = Some b ∧ node_le a b.


(** ** What a suspended play still waits for *)




(** ** Recordings that overlap *)



(** ** What can be observed of a world *)

(** All of a world but the player's private field [audioSource] and the
    stopped marks of the source nodes; of these it keeps which nodes
    sound. *)
Definition visible (w : World) :=
  (audible w,
   (λ nd, (n_buffer nd, n_connected nd, n_started nd, n_ended nd, n_onended nd))
     <$> sources (platform w),
   audioContext (player w), destination (player w),
   (contexts (platform w), destinations (platform w), audios (platform w),
    recorders (platform w), streams (platform w), object_urls (platform w)),
   home w, tasks w).

(** A recording made and stopped, and then a clip played to its natural
    end. *)
Definition tr_ran_out : list Label :=
  tr_recorded ++ [InitEffect true; ClickPlay sample] ++ played 1 [1%Z] ++ [Ended 0].

(** ** Plays issued one at a time

    The page does not serialize plays by itself; these definitions describe
    the runs in which a play is only begun when no earlier play is still
    suspended. *)

Definition is_play_task (t : Task) : bool :=
  match t with
  | PlayTask _ _ => true
  | _ => false
  end.

Fixpoint count_plays (ts : list Task) : nat :=
  match ts with
  | [] => 0
  | t :: ts' => (if is_play_task t then 1 else 0) + count_plays ts'
  end.

(** Some [playAudio] call is suspended at one of its awaits. *)
Definition in_flight (w : World) : bool :=
  negb (Nat.eqb (count_plays (tasks w)) 0).

Definition begins_play (l : Label) : bool :=
  match l with
  | CallPlayAudio _ | ClickPlay _ => true
  | _ => false
  end.

Definition serial_step (l : Label) (w : World) : option World :=
  if begins_play l && in_flight w then None else step l w.

Fixpoint serial_run (tr : list Label) (w : World) : option World :=
  match tr with
  | [] => Some w
  | l :: tr' =>
      match serial_step l w with
      | Some w' => serial_run tr' w'
      | None => None
      end
  end.

Definition serially_reachable (w : World) : Prop :=
  ∃ tr, serial_run tr world0 = Some w.

(** [playing] on the list of source nodes. *)
Definition sounds (l : list SourceNode) (n : nat) : bool :=
  match l !! n with
  | Some nd => sounding nd
  | None => false
  end.

Record single_flight (w : World) : Prop := {
  sf_pending : count_plays (tasks w) ≤ 1;
  sf_one : ∀ n, sounds (sources (platform w)) n = true →
    audioSource (player w) = Some n ∧ count_plays (tasks w) = 0
}.

(** A play, and then a second one begun after the first has landed. *)
Definition tr_one_after_another : list Label :=
  tr_sounding ++ [ClickPlay (SiteUrl "/b.mp3")] ++ played 1 [2%Z].

(** ** What the flags of the page stand for *)

(** Node [n] of the list has the [onended] callback of [handlePlayClick]. *)
Definition has_callback (l : list SourceNode) (n : nat) : Prop :=
  ∃ nd, l !! n = Some nd ∧ n_onended nd = true.

Record flags_backed (w : World) : Prop := {
  fb_playing : isPlaying (home w) = true → is_Some (audioSourceRef (home w));
  fb_ref : ∀ n, audioSourceRef (home w) = Some n →
    has_callback (sources (platform w)) n
}.

(** ** Routes *)

(** No audio element is fed from a destination node that does not exist
    yet, and the route of the player, if any, is an existing node. *)
Record route_ok (w : World) : Prop := {
  ro_audios :
    Forall (λ a, ∀ d, a_srcObject a = Some d → d < length (destinations (platform w)))
           (audios (platform w));
  ro_destination : ∀ d, destination (player w) = Some d →
    d < length (destinations (platform w))
}.

(** ** The three parts of the state

    What the routing code ([init] and its effect), the playback code and
    the recording code each work on.  The table of suspended calls belongs
    to none of them. *)
Inductive Session := Routing | Playback | Capture.

Definition session_of (l : Label) : Session :=
  match l with
  | CallInit _ _ | InitEffect _ | SelectOutput _ _ | SinkBound _ _ => Routing
  | CallPlayAudio _ | CallStopAudio | ClickPlay _ | ClickStop
  | Fetched _ _ | BodyRead _ _ | Decoded _ _ | Ended _ | EndedAfterStop _ => Playback
  | StartRecording | StopRecording | MicAnswered _ _
  | DataAvailable _ _ | RecorderStopped _ _ => Capture
  end.

Definition routing_state (w : World) :=
  (audioContext (player w), destination (player w), contexts (platform w),
   destinations (platform w), audios (platform w), selectedOutput (home w)).

Definition playback_state (w : World) :=
  (audioSource (player w), sources (platform w), isPlaying (home w),
   audioSourceRef (home w)).

Definition capture_state (w : World) :=
  (recorders (platform w), streams (platform w), object_urls (platform w),
   recordings (home w), isRecording (home w), mediaRecorderRef (home w),
   audioChunksRef (home w)).

(** ** The list of devices

    [initDevices] and the options of the output selector.  The list
    [audioDevices] is state of the page that only the selector reads. *)
Inductive MediaDeviceKind := audioinput | audiooutput | videoinput.

Record MediaDeviceInfo := {
  deviceId : string;
  kind : MediaDeviceKind;
  label : string
}.

(** [initDevices]: the list answered by [enumerateDevices] replaces the
    state; a rejection is only logged. *)
Definition initDevices (answer : Result (list MediaDeviceInfo))
  (audioDevices : list MediaDeviceInfo) : list MediaDeviceInfo :=
  match answer with
  | Returned devices => devices
  | Threw _ => audioDevices
  end.

Definition is_audiooutput (d : MediaDeviceInfo) : bool :=
  match kind d with
  | audiooutput => true
  | _ => false
  end.

(** [device.label || `Output Device ${device.deviceId}`]. *)
Definition option_label (d : MediaDeviceInfo) : string :=
  if truthy (Some (label d)) then label d
  else String.append "Output Device " (deviceId d).

(** The [<option>]s of the selector: value and text. *)
Definition output_options (audioDevices : list MediaDeviceInfo) : list (string * string) :=
  ("", "Default Output") ::
  map (λ d, (deviceId d, option_label d))
      (List.filter is_audiooutput audioDevices).
(** ** Proof tools *)

#[local] Set Warnings "-clear-no-such-hyp".

(** Name the fields of a world. *)
Ltac open_world w :=
  destruct w as [[ac asrc dst] [ctxs dsts auds srcs recs strs urls]
                 [ip so rcs ir asr mrr acr] ts].

(** Unfold the code down to constructors of the world. *)
Ltac unfold_code :=
  cbv beta iota zeta delta [step init init_enter init_resume playAudio playAudio_enter
    playAudio_fetched playAudio_body playAudio_decoded playAudio_finish
    stopAudio handlePlayClick handlePlayClick_then notify handleStopClick
    handleStartRecording handleStartRecording_with handleStartRecording_resume
    handleStopRecording ondataavailable_handler onstop_handler onended_handler
    fire_ended fire_dataavailable fire_stop recorder_stop_task play_caller
    suspend settle advance finish try_catch throw read update skip
    new_AudioContext createMediaStreamDestination new_Audio set_srcObject
    bind_sink audio_play createBufferSource source_start source_stop
    new_MediaRecorder recorder_start recorder_stop grant_stream createObjectURL
    playing is_recording source_of recorder_of alter_audio alter_source alter_recorder
    with_player with_platform with_home with_tasks mbind mret M_bind M_ret
    set_audioContext set_audioSource set_destination
    set_contexts set_destinations set_audios set_sources set_recorders set_streams
    set_object_urls set_isPlaying set_selectedOutput set_recordings set_isRecording
    set_audioSourceRef set_mediaRecorderRef set_audioChunksRef
    player platform home tasks audioContext audioSource destination
    contexts destinations audios sources recorders streams object_urls
    isPlaying selectedOutput recordings isRecording audioSourceRef mediaRecorderRef
    audioChunksRef fst snd compose fmap option_fmap option_map option_bind] in *.

Lemma alter_snoc {A} (f : A → A) (l : list A) (x : A) :
  alter f (length l) (l ++ [x]) = l ++ [f x].
Proof.
  induction l as [|y l IH]; simpl; [done|]. f_equal. exact IH.
Qed.

Lemma lookup_snoc {A} (l : list A) (x : A) : (l ++ [x]) !! length l = Some x.
Proof. by apply list_lookup_middle. Qed.

(** Case analysis on whatever the unfolded code still inspects; an update
    at the index of the element just appended is an update of that element. *)
Ltac crunch :=
  repeat (first [ rewrite alter_snoc in * | rewrite lookup_snoc in * | case_match ];
          simplify_eq/=).

(** [Forall] over a list built by appending, altering and inserting. *)
Ltac forall_tac :=
  lazymatch goal with
  | |- Forall _ (_ ++ [_]) => apply Forall_app_2; [forall_tac | apply Forall_singleton]
  | |- Forall _ (alter _ _ _) => apply Forall_alter; [forall_tac | intros ? ? ?]
  | |- Forall _ (<[_:=_]> _) => apply Forall_insert; [forall_tac | ]
  | |- Forall _ ?l =>
      match goal with
      | H : Forall _ l |- _ =>
          first [exact H | eapply Forall_impl; [exact H | simpl; intros ? ?]]
      end
  end.

Ltac leaf :=
  simpl in *; rewrite ?length_alter, ?length_app in *; simpl in *;
  try done; try (intros; simplify_eq; lia); try (naive_solver lia);
  try (match goal with x : Task |- _ => destruct x; by eauto end);
  try match goal with
      | H : Forall _ ?l, L : ?l !! _ = Some _ |- _ =>
          apply (Forall_lookup_1 _ _ _ _ H) in L; simpl in L; naive_solver
      end.

Lemma recording_alter_stopping (recs : list MediaRecorder) (r r0 : nat) rc :
  recs !! r0 = Some rc → r_state rc = Recording →
  ∃ rc', alter (set_r_stopping false) r recs !! r0 = Some rc' ∧ r_state rc' = Recording.
Proof.
  intros Hl Hs. rewrite list_lookup_alter.
  case_decide; subst; rewrite Hl; simpl.
  - exists (set_r_stopping false rc). by split.
  - exists rc. by split.
Qed.

Ltac leaf_rec H :=
  let Hir := fresh "Hir" in
  intros Hir;
  first
    [ eexists; split; [reflexivity|]; rewrite lookup_snoc; eexists; split; reflexivity
    | destruct (H Hir) as (? & ? & ? & ? & ?); simplify_eq;
      first
        [ by eauto
        | eexists; split; [reflexivity|];
          eapply recording_alter_stopping; eassumption ] ].

(** ** Every step keeps the world well formed

    In particular every source node in the store has been started (it is
    started in the run that creates it), every recorder has both callbacks,
    and [isRecording] is only true while the current recorder records. *)

Lemma wf_world0 : wf world0.
Proof.
  split; simpl; try done; try by constructor.
Qed.

Lemma step_wf l w w' : wf w → step l w = Some w' → wf w'.
Proof.
  intros [H1 H2 H3 H4 H5 H6 H7 H8 H9 H10] Hs. open_world w.
  destruct l; unfold_code; crunch.
  all: split; unfold task_ok, recorder_of in *; simpl in *; try done.
  all: lazymatch goal with
       | |- _ = true → ∃ _, _ => leaf_rec H10
       | |- _ => clear H10; try forall_tac; leaf
       end.
Qed.

Lemma run_wf tr : ∀ w w', wf w → run tr w = Some w' → wf w'.
Proof.
  induction tr as [|l tr IH]; simpl; intros w w' Hw Hr.
  - by simplify_eq.
  - destruct (step l w) as [w1|] eqn:Hs; [|done].
    eapply IH; [|exact Hr]. by eapply step_wf.
Qed.

Lemma reachable_wf w : reachable w → wf w.
Proof.
  intros [tr Hr]. eapply run_wf; [apply wf_world0 | exact Hr].
Qed.

Lemma run_app tr1 tr2 w :
  run (tr1 ++ tr2) w = w1 ← run tr1 w; run tr2 w1.
Proof.
  revert w. induction tr1 as [|l tr1 IH]; simpl; intros w; [done|].
  destruct (step l w); simpl; [apply IH | done].
Qed.

Lemma reachable_step l w w' : reachable w → step l w = Some w' → reachable w'.
Proof.
  intros [tr Hr] Hs. exists (tr ++ [l]).
  rewrite run_app, Hr. simpl. by rewrite Hs.
Qed.

(** ** What no step undoes *)

Lemma step_frame l w w' :
  step l w = Some w' →
  (∀ c, audioContext (player w) = Some c →
     audioContext (player w') = Some c ∧ contexts (platform w') = contexts (platform w)) ∧
  recordings (home w) `prefix_of` recordings (home w') ∧
  streams (platform w) `prefix_of` streams (platform w').
Proof.
  intros Hs. open_world w.
  destruct l; unfold_code; crunch.
  all: repeat split; simpl; try done; try (intros; simplify_eq; done);
       try apply prefix_app_r; done.
Qed.

Lemma node_le_refl a : node_le a a.
Proof. by repeat split. Qed.

Lemma sources_le_refl l : sources_le l l.
Proof. intros n a H. exists a. split; [done | apply node_le_refl]. Qed.

Lemma sources_le_app l x : sources_le l (l ++ x).
Proof.
  intros n a H. exists a. split; [|apply node_le_refl].
  by apply lookup_app_l_Some.
Qed.

Lemma sources_le_alter l f i :
  (∀ a, node_le a (f a)) → sources_le l (alter f i l).
Proof.
  intros Hf n a H. rewrite list_lookup_alter.
  case_decide; subst; rewrite H; simpl.
  - exists (f a). split; [done | apply Hf].
  - exists a. split; [done | apply node_le_refl].
Qed.

Lemma node_le_stopped a : node_le a (set_n_stopped true a).
Proof. by repeat split. Qed.

Lemma node_le_ended a : node_le a (set_n_ended true a).
Proof. by repeat split. Qed.

Lemma step_sources l w w' :
  step l w = Some w' → sources_le (sources (platform w)) (sources (platform w')).
Proof.
  intros Hs. open_world w.
  destruct l; unfold_code; crunch.
  all: try match goal with
           | H : Build_Platform _ _ _ _ _ _ _ = _ |- _ => injection H as -> -> -> -> -> -> ->
           end.
  all: first [ apply sources_le_refl | apply sources_le_app
             | apply sources_le_alter; first [apply node_le_stopped | apply node_le_ended] ].
Qed.

Lemma run_sources tr : ∀ w w',
  run tr w = Some w' → sources_le (sources (platform w)) (sources (platform w')).
Proof.
  induction tr as [|l tr IH]; simpl; intros w w' Hr.
  - simplify_eq. apply sources_le_refl.
  - destruct (step l w) as [w1|] eqn:Hs; [|done].
    intros n a Ha.
    destruct (step_sources _ _ _ Hs n a Ha) as (b & Hb & Hab).
    destruct (IH _ _ Hr n b Hb) as (c & Hc & Hbc).
    exists c. split; [done|].
    destruct Hab as (?&?&?&?&?&?), Hbc as (?&?&?&?&?&?).
    repeat split; try congruence; eauto.
Qed.

Lemma node_le_silent a b : node_le a b → sounding a = false → sounding b = false.
Proof.
  unfold sounding. intros (_&_&Hs&_&Hst&He).
  rewrite Hs. destruct (n_started a), (n_stopped a) eqn:?, (n_ended a) eqn:?; simpl; try done.
  - rewrite Hst by done. done.
  - rewrite Hst by done. done.
  - rewrite He by done. intros _. by rewrite andb_false_r.
Qed.

(** A node that exists and does not sound never sounds later. *)
Lemma run_silent tr w w' n :
  run tr w = Some w' →
  n < length (sources (platform w)) →
  playing w n = false → playing w' n = false.
Proof.
  intros Hr Hn. unfold playing, source_of.
  destruct (lookup_lt_is_Some_2 _ _ Hn) as [a Ha]. rewrite Ha.
  destruct (run_sources _ _ _ Hr n a Ha) as (b & -> & Hab).
  by apply node_le_silent.
Qed.


Lemma reachable_after tr : is_Some (run tr world0) → reachable (after tr).
Proof. intros [w H]. exists tr. unfold after. by rewrite H. Qed.

Ltac runs := apply reachable_after; vm_compute; eexists; reflexivity.

(** ** The audio context *)

(** C9: [init] creates the context only when the player has none.  In every
    reachable world at most one context was ever constructed; an [init] on a
    player that has a context leaves that context in place and constructs
    none, whatever its argument and whatever the platform answers; on a
    player without one it constructs exactly one; and no later step of any
    kind replaces an existing context. *)
Theorem init_context_idempotent (w : World) (Hw : reachable w) :
  contexts (platform w) ≤ 1 ∧
  (∀ c dev ctor_ok, audioContext (player w) = Some c →
     audioContext (player (init dev ctor_ok w).2) = Some c ∧
     contexts (platform (init dev ctor_ok w).2) = contexts (platform w)) ∧
  (∀ dev, audioContext (player w) = None →
     audioContext (player (init dev true w).2) = Some 0 ∧
     contexts (platform (init dev true w).2) = 1) ∧
  (∀ c l w', audioContext (player w) = Some c → step l w = Some w' →
     audioContext (player w') = Some c ∧
     contexts (platform w') = contexts (platform w)).
Proof.
  pose proof (wf_context _ (reachable_wf _ Hw)) as Hc.
  repeat split.
  - destruct (audioContext (player w)); lia.
  - eapply (step_frame (CallInit dev ctor_ok)); [reflexivity | done].
  - eapply (step_frame (CallInit dev ctor_ok)); [reflexivity | done].
  - rewrite H in Hc. open_world w. unfold_code. crunch; done.
  - rewrite H in Hc. open_world w. unfold_code. crunch; done.
  - by eapply step_frame.
  - by eapply step_frame.
Qed.

Lemma init_context_idempotent_witness :
  reachable (after [InitEffect true]) ∧
  audioContext (player (after [InitEffect true])) = Some 0 ∧
  audioContext (player (init (Some "D") true (after [InitEffect true])).2) = Some 0 ∧
  contexts (platform (init (Some "D") true (after [InitEffect true])).2) = 1.
Proof.
  assert (Hr : reachable (after [InitEffect true])) by runs.
  split; [exact Hr|]. split; [reflexivity|].
  destruct (init_context_idempotent _ Hr) as (_ & H & _).
  apply (H 0 (Some "D") true). reflexivity.
Defined.

(** ** Clips *)

(** C10: every blob in the object-URL store was built with the type
    "audio/wav", whatever type the fragments delivered by the recorder
    declare, and every URL in the list of recordings names such a blob. *)
Theorem clips_declared_wav (w : World) (Hw : reachable w) :
  (∀ k b, object_urls (platform w) !! k = Some b → b_type b = "audio/wav") ∧
  (∀ u, u ∈ recordings (home w) →
     ∃ k b, u = ObjectUrl k ∧ object_urls (platform w) !! k = Some b ∧
            b_type b = "audio/wav").
Proof.
  pose proof (reachable_wf _ Hw) as Hwf.
  pose proof (wf_blobs _ Hwf) as Hb. pose proof (wf_recordings _ Hwf) as Hr.
  rewrite Forall_lookup in Hb. split; [exact Hb|].
  intros u Hu. rewrite Forall_forall in Hr.
  destruct (Hr u Hu) as (k & -> & Hk).
  destruct (lookup_lt_is_Some_2 _ _ Hk) as [b Hkb].
  exists k, b. eauto.
Qed.

Lemma clips_declared_wav_witness :
  reachable (after (tr_recording ++ [StopRecording; RecorderStopped 0 (webm [Byte.x02])])) ∧
  ∃ k b, ObjectUrl 0 = ObjectUrl k ∧
    object_urls (platform (after (tr_recording ++
      [StopRecording; RecorderStopped 0 (webm [Byte.x02])]))) !! k = Some b ∧
    b_type b = "audio/wav".
Proof.
  assert (Hr : reachable (after (tr_recording ++
    [StopRecording; RecorderStopped 0 (webm [Byte.x02])]))) by runs.
  split; [exact Hr|].
  apply (clips_declared_wav _ Hr). vm_compute. by left.
Defined.

(** ** The microphone stream *)

(** C7, as claimed, fails: a recording is started and stopped, the stop
    task has run and the clip is in the list, and the stream the recorder
    was built on is still live. *)
Lemma stop_leaves_stream_open :
  runnable tr_recorded = true ∧
  capturing (after tr_started) = [0] ∧
  mediaRecorderRef (home (after tr_started)) = Some 0 ∧
  (r_stream <$> recorder_of (after tr_started) 0) = Some 0 ∧
  capturing (after tr_recorded) = [] ∧
  recordings (home (after tr_recorded)) = [ObjectUrl 0] ∧
  streams (platform (after tr_recorded)) !! 0 = Some {| st_live := true |}.
Proof. vm_compute. done. Qed.

(** C7, amended: stopping a recording halts the recorder and nothing else.
    Neither [handleStopRecording] nor the stop task touches a stream, no
    step ever removes or ends one, and so in every reachable world the
    stream of every recorder, stopped or not, is still live. *)
Theorem stream_never_released (w : World) (Hw : reachable w) :
  streams (platform (handleStopRecording w).2) = streams (platform w) ∧
  (∀ r data, streams (platform (recorder_stop_task r data w)) = streams (platform w)) ∧
  (∀ l w', step l w = Some w' → streams (platform w) `prefix_of` streams (platform w')) ∧
  (∀ r rc, recorder_of w r = Some rc →
     streams (platform w) !! r_stream rc = Some {| st_live := true |}).
Proof.
  pose proof (reachable_wf _ Hw) as Hwf.
  repeat split.
  - open_world w. unfold_code. crunch; done.
  - intros r data. open_world w. unfold_code. crunch; done.
  - intros l w' Hs. by eapply step_frame.
  - intros r rc Hr.
    pose proof (wf_recorders _ Hwf) as Hrec. pose proof (wf_streams _ Hwf) as Hst.
    rewrite Forall_lookup in Hrec. rewrite Forall_lookup in Hst.
    destruct (Hrec r rc Hr) as (_ & _ & Hlt).
    destruct (lookup_lt_is_Some_2 _ _ Hlt) as [[live] Hs].
    specialize (Hst _ _ Hs). simpl in Hst. by subst.
Qed.

Lemma stream_never_released_witness :
  reachable (after tr_recorded) ∧
  ∀ rc, recorder_of (after tr_recorded) 0 = Some rc →
        streams (platform (after tr_recorded)) !! r_stream rc = Some {| st_live := true |}.
Proof.
  assert (Hr : reachable (after tr_recorded)) by runs.
  split; [exact Hr|].
  destruct (stream_never_released _ Hr) as (_ & _ & _ & H). exact (H 0).
Defined.

(** ** Starting a recording *)

(** C5, as claimed, fails: with a recording running and one fragment
    gathered, a second start is neither rejected nor a no-op.  Once the
    microphone is granted two recorders record and the fragment is gone.
    The page alone gets there too: the recording button still runs the
    start handler while the first request for the microphone is pending,
    and two clicks then leave two recorders recording. *)
Lemma second_start_not_rejected :
  runnable tr_second_start = true ∧
  capturing (after tr_recording) = [0] ∧
  audioChunksRef (home (after tr_recording)) = [webm [Byte.x01]] ∧
  capturing (after tr_second_start) = [0; 1] ∧
  mediaRecorderRef (home (after tr_second_start)) = Some 1 ∧
  audioChunksRef (home (after tr_second_start)) = [] ∧
  runnable tr_double_start = true ∧
  onClick RecordingButton world0 = Some StartRecording ∧
  onClick RecordingButton (after [StartRecording]) = Some StartRecording ∧
  capturing (after tr_double_start) = [0; 1].
Proof. vm_compute. done. Qed.

(** C5, amended: [handleStartRecording] has no guard of its own.  It always
    asks for the microphone; when access is granted it builds a recorder on
    the new stream, makes it the current one, empties the fragment buffer and
    starts it, and every recorder that was recording keeps recording.  When
    access is denied nothing changes but the task entry.  What keeps a start
    from a running recording is the page: while [isRecording] holds, the
    recording button runs the stop handler. *)
Theorem start_recording_unguarded (w : World) (t : nat)
  (Ht : tasks w !! t = Some MicTask) :
  (handleStartRecording w).2 = with_tasks (λ ts, ts ++ [MicTask]) w ∧
  (∃ w', handleStartRecording_resume t ok w = Some (Resolved tt, w') ∧
     recorders (platform w') = recorders (platform w) ++
       [{| r_stream := length (streams (platform w)); r_state := Recording;
           r_ondataavailable := true; r_onstop := true; r_stopping := false |}] ∧
     mediaRecorderRef (home w') = Some (length (recorders (platform w))) ∧
     audioChunksRef (home w') = [] ∧
     isRecording (home w') = true ∧
     (∀ r, is_recording w r = true → is_recording w' r = true)) ∧
  (∀ e, handleStartRecording_resume t (Threw e) w = Some (Resolved tt, settle t w)) ∧
  (isRecording (home w) = true → onClick RecordingButton w = Some StopRecording).
Proof.
  split; [reflexivity|]. split; [|split].
  - open_world w. unfold_code. simpl in Ht. rewrite Ht. crunch.
    eexists. split; [reflexivity|]. simpl. repeat split.
    intros r. destruct (recs !! r) as [rc|] eqn:Hr; [|done].
    by rewrite (lookup_app_l_Some _ _ _ _ Hr).
  - intros e. unfold handleStartRecording_resume. by rewrite Ht.
  - unfold onClick. by intros ->.
Qed.

Lemma start_recording_unguarded_witness :
  tasks (after (tr_recording ++ [StartRecording])) !! 1 = Some MicTask ∧
  ∃ w', handleStartRecording_resume 1 ok (after (tr_recording ++ [StartRecording]))
          = Some (Resolved tt, w') ∧
        audioChunksRef (home w') = [] ∧ is_recording w' 0 = true ∧
        is_recording w' 1 = true.
Proof.
  split; [reflexivity|].
  destruct (start_recording_unguarded (after (tr_recording ++ [StartRecording])) 1
              eq_refl) as (_ & (w' & H1 & H2 & H3 & H4 & H5 & H6) & _).
  exists w'. split; [exact H1|]. split; [exact H4|]. split.
  - apply H6. reflexivity.
  - unfold is_recording, recorder_of. rewrite H2. reflexivity.
Defined.

(** ** Stopping a recording *)

Lemma capturing_nil w r : capturing w = [] → is_recording w r = false.
Proof.
  intros Hc. destruct (is_recording w r) eqn:Hr; [|done].
  assert (r ∈ capturing w) as Hin; [|rewrite Hc in Hin; by apply not_elem_of_nil in Hin].
  apply list_elem_of_filter. split; [done|].
  apply elem_of_seq. split; [lia|]. simpl.
  unfold is_recording, recorder_of in Hr.
  destruct (recorders (platform w) !! r) eqn:Hl; [|done].
  by eapply lookup_lt_Some.
Qed.

Lemma playing_lt w n : playing w n = true → n < length (sources (platform w)).
Proof.
  unfold playing, source_of. intros H.
  destruct (sources (platform w) !! n) eqn:Hl; [|done].
  by eapply lookup_lt_Some.
Qed.

Lemma audible_nil w n : audible w = [] → playing w n = false.
Proof.
  intros Hc. destruct (playing w n) eqn:Hr; [|done].
  assert (n ∈ audible w) as Hin; [|rewrite Hc in Hin; by apply not_elem_of_nil in Hin].
  apply list_elem_of_filter. split; [done|].
  apply elem_of_seq. split; [lia|]. simpl. by apply playing_lt.
Qed.

Lemma nil_audible w : (∀ n, playing w n = false) → audible w = [].
Proof.
  intros H. unfold audible.
  induction (seq 0 (length (sources (platform w)))) as [|n l IH]; [done|].
  rewrite filter_cons_False; [done|]. by rewrite H.
Qed.










(** ** Stopping when idle *)

Lemma stopAudio_returns w :
  wf w → ∃ w', stopAudio w = (Returned tt, w') ∧
    audioSource (player w') = None ∧
    audioContext (player w') = audioContext (player w) ∧
    destination (player w') = destination (player w) ∧
    home w' = home w ∧ tasks w' = tasks w ∧
    length (sources (platform w')) = length (sources (platform w)) ∧
    sources_le (sources (platform w)) (sources (platform w')) ∧
    (∀ n, audioSource (player w) = Some n → playing w' n = false).
Proof.
  intros Hwf. pose proof (wf_source _ Hwf) as Hs.
  pose proof (wf_started _ Hwf) as Hst. rewrite Forall_lookup in Hst.
  open_world w. cbn [player platform audioSource sources] in *.
  destruct asrc as [n|].
  - destruct (lookup_lt_is_Some_2 _ _ (Hs n eq_refl)) as [nd Hn].
    pose proof (Hst _ _ Hn) as Hnd.
    unfold_code. rewrite Hn, Hnd. cbn.
    eexists. split; [reflexivity|]. cbn. repeat split.
    + by rewrite length_alter.
    + apply sources_le_alter, node_le_stopped.
    + intros ? [= <-]. rewrite list_lookup_alter_eq, Hn. cbn.
      unfold sounding. cbn. by rewrite andb_false_r.
  - unfold_code. eexists. split; [reflexivity|]. cbn. repeat split; [|done].
    apply sources_le_refl.
Qed.

Lemma sources_le_silent w w' :
  sources_le (sources (platform w)) (sources (platform w')) →
  length (sources (platform w')) = length (sources (platform w)) →
  audible w = [] → audible w' = [].
Proof.
  intros Hle Hlen Ha. apply nil_audible. intros n.
  pose proof (audible_nil _ n Ha) as Hn. unfold playing, source_of in *.
  destruct (sources (platform w) !! n) as [a|] eqn:Hl.
  - destruct (Hle _ _ Hl) as (b & -> & Hab). by eapply node_le_silent.
  - apply lookup_ge_None in Hl. rewrite <- Hlen in Hl.
    apply lookup_ge_None in Hl. by rewrite Hl.
Qed.

(** ** A stop on a silent source cannot be observed *)

Lemma alter_swap {A} (f g : A → A) (i j : nat) (l : list A) :
  (∀ x, f (g x) = g (f x)) → alter f i (alter g j l) = alter g j (alter f i l).
Proof.
  intros Hfg. apply list_eq. intros k. rewrite !list_lookup_alter.
  repeat case_decide; subst; rewrite ?list_lookup_alter; repeat case_decide;
    try done; destruct (l !! _); cbn; by rewrite ?Hfg.
Qed.

Lemma alter_fixed {A} (f : A → A) (i : nat) (l : list A) (x : A) :
  l !! i = Some x → f x = x → alter f i l = l.
Proof.
  intros Hl Hf. apply list_eq. intros k. rewrite list_lookup_alter.
  case_decide; subst; [|done]. by rewrite Hl; cbn; rewrite Hf.
Qed.

Lemma alter_twice {A} (f : A → A) (i : nat) (l : list A) :
  (∀ x, f (f x) = f x) → alter f i (alter f i l) = alter f i l.
Proof.
  intros Hf. rewrite list_alter_alter. case_decide; [|done].
  apply list_alter_ext; [|done]. intros x _. apply Hf.
Qed.

(** Marking a silent source as stopped commutes with every step. *)
Lemma step_touch l w n nd :
  source_of w n = Some nd → n_started nd = true → sounding nd = false →
  step l (alter_source (set_n_stopped true) n w)
  = alter_source (set_n_stopped true) n <$> step l w.
Proof.
  intros Hn Hst Hsil. open_world w. unfold source_of in Hn. cbn [platform sources] in Hn.
  pose proof (lookup_lt_Some _ _ _ Hn) as Hlt.
  destruct nd as [b cn s st e o]. cbn in Hst. subst s.
  destruct l.
  13: destruct (ts !! t) as [[| [] c | |]|] eqn:Ht; destruct ac, outcome.
  all: unfold_code; rewrite ?Ht; crunch; try done; rewrite ?list_lookup_alter in *; crunch; try done.
  all: rewrite ?length_alter in *; rewrite ?alter_app_l by done; try done.
  all: do 3 (try match goal with
       | |- context [alter ?f ?i (alter (set_n_stopped true) ?j ?l)] =>
           rewrite (alter_swap f (set_n_stopped true) i j l) by (by intros [])
       end; try done).
  all: try congruence.
  all: try (rewrite Hn in *); simplify_eq/=; try congruence.
  all: rewrite ?alter_twice by (by intros []); try done.
  all: destruct st, e; by cbn in *.
Qed.

(** Forgetting a source that was stopped commutes with every step, until
    the player takes the next source. *)
Lemma step_clear l w n nd :
  audioSource (player w) = Some n →
  source_of w n = Some nd → n_started nd = true → n_stopped nd = true →
  step l (with_player (set_audioSource None) w)
  = (λ w1, if bool_decide (audioSource (player w1) = Some n)
           then with_player (set_audioSource None) w1 else w1) <$> step l w.
Proof.
  intros Ha Hn Hst Hsp. open_world w. unfold source_of in Hn.
  cbn [platform sources player audioSource] in Hn, Ha. subst asrc.
  pose proof (lookup_lt_Some _ _ _ Hn) as Hlt.
  assert (alter (set_n_stopped true) n srcs = srcs) as Hfix.
  { eapply alter_fixed; [done|]. destruct nd. cbn in *. by subst. }
  destruct l.
  13: destruct (ts !! t) as [[| [] c | |]|] eqn:Ht; destruct ac, outcome.
  all: unfold_code; rewrite ?Ht, ?Hn, ?Hst, ?Hfix; crunch; try done.
  all: repeat case_bool_decide; simplify_eq/=; try done; try lia.
  all: by rewrite Hfix.
Qed.

Lemma visible_touch w n nd :
  source_of w n = Some nd → sounding nd = false →
  visible (alter_source (set_n_stopped true) n w) = visible w.
Proof.
  intros Hn Hsil. open_world w. unfold source_of in Hn. cbn [platform sources] in Hn.
  unfold visible, audible, playing, source_of, alter_source, with_platform. cbn.
  rewrite length_alter. f_equal. f_equal. f_equal. f_equal. f_equal. f_equal.
  - apply list_filter_iff. intros m. rewrite list_lookup_alter.
    case_decide; subst; [|done]. rewrite Hn. cbn.
    unfold sounding in *. cbn. rewrite Hsil. by rewrite andb_false_r.
  - apply list_eq. intros m. rewrite !list_lookup_fmap, list_lookup_alter.
    case_decide; subst; [|done]. by rewrite Hn.
Qed.

Lemma stopAudio_eq w :
  wf w →
  stopAudio w = (Returned tt,
    match audioSource (player w) with
    | Some n => with_player (set_audioSource None) (alter_source (set_n_stopped true) n w)
    | None => w
    end).
Proof.
  intros Hwf. pose proof (wf_source _ Hwf) as Hs.
  pose proof (wf_started _ Hwf) as Hst. rewrite Forall_lookup in Hst.
  open_world w. cbn [player platform audioSource sources] in *.
  destruct asrc as [n|]; [|done].
  destruct (lookup_lt_is_Some_2 _ _ (Hs n eq_refl)) as [nd Hn].
  pose proof (Hst _ _ Hn) as Hnd.
  unfold_code. by rewrite Hn, Hnd.
Qed.

(** A world, and the same world with a silent source marked as stopped and
    perhaps forgotten by the player, cannot be told apart by any run. *)
Lemma run_touch tr : ∀ a b n nd,
  wf a → source_of a n = Some nd → sounding nd = false →
  b = alter_source (set_n_stopped true) n a ∨
  (audioSource (player a) = Some n ∧
   b = with_player (set_audioSource None) (alter_source (set_n_stopped true) n a)) →
  match run tr a, run tr b with
  | Some a', Some b' => visible b' = visible a'
  | None, None => True
  | _, _ => False
  end.
Proof.
  induction tr as [|l tr IH]; intros a b n nd Hwf Hn Hsil Hb; cbn [run].
  - destruct Hb as [-> | [_ ->]]; by eapply visible_touch.
  - assert (n_started nd = true) as Hst.
    { pose proof (wf_started _ Hwf) as H. rewrite Forall_lookup in H. by eapply H. }
    assert (∀ a1, step l a = Some a1 →
              wf a1 ∧ ∃ nd1, source_of a1 n = Some nd1 ∧ sounding nd1 = false) as Hnext.
    { intros a1 Hs. split; [by eapply step_wf|].
      destruct (step_sources _ _ _ Hs _ _ Hn) as (nd1 & Hn1 & Hle).
      exists nd1. split; [done|]. by eapply node_le_silent. }
    pose proof (step_touch l a n nd Hn Hst Hsil) as Ht.
    destruct Hb as [-> | [Ha ->]].
    + rewrite Ht. destruct (step l a) as [a1|] eqn:Hs; cbn; [|done].
      destruct (Hnext a1 eq_refl) as (Hwf1 & nd1 & Hn1 & Hsil1).
      eapply (IH a1); eauto.
    + rewrite (step_clear l _ n (set_n_stopped true nd)); cycle 1.
      { done. }
      { unfold source_of, alter_source, with_platform in *. cbn.
        by rewrite list_lookup_alter_eq, Hn. }
      { by destruct nd. }
      { by destruct nd. }
      rewrite Ht. destruct (step l a) as [a1|] eqn:Hs; cbn; [|done].
      destruct (Hnext a1 eq_refl) as (Hwf1 & nd1 & Hn1 & Hsil1).
      case_bool_decide as Hd; eapply (IH a1); eauto.
Qed.

(** C8: stopping when idle does nothing and does not throw.  With no
    source held by the player, [stopAudio] returns the world as it was, and
    so does [handleStopRecording] with no recorder in the ref.  More
    generally, in a reachable world where no source sounds, [stopAudio]
    returns normally and nothing that can be observed changes: the page
    state, the suspended calls, the context, the route, the recorders and
    clips, and every source node but for its stopped mark are as they were,
    and still nothing sounds.  All it does is clear the player's private
    field when that still names a source that has ended or was stopped, and
    mark that silent node as stopped; and whatever steps follow, the world
    with the stop and the world without it go through the same steps and
    stay the same in all of this.  Where no recorder records,
    [handleStopRecording] returns the world as it was. *)
Theorem stop_idle_noop (w : World) (Hw : reachable w) :
  (audioSource (player w) = None → stopAudio w = (Returned tt, w)) ∧
  (mediaRecorderRef (home w) = None → handleStopRecording w = (Returned tt, w)) ∧
  (audible w = [] →
     ∃ w', stopAudio w = (Returned tt, w') ∧ audible w' = [] ∧
           audioSource (player w') = None ∧
           home w' = home w ∧ tasks w' = tasks w ∧
           visible w' = visible w ∧
           ∀ tr, match run tr w, run tr w' with
                 | Some a, Some b => visible b = visible a
                 | None, None => True
                 | _, _ => False
                 end) ∧
  (capturing w = [] → handleStopRecording w = (Returned tt, w)).
Proof.
  pose proof (reachable_wf _ Hw) as Hwf.
  split; [|split; [|split]].
  - open_world w. cbn. by intros ->.
  - open_world w. cbn. by intros ->.
  - intros Ha. destruct (stopAudio_returns _ Hwf) as (w' & H & ? & ? & ? & ? & ? & ? & ? & ?).
    exists w'. split; [done|]. split; [by eapply sources_le_silent|].
    split; [done|]. split; [done|]. split; [done|].
    rewrite (stopAudio_eq _ Hwf) in H. injection H as <-.
    destruct (audioSource (player w)) as [n|] eqn:Hn.
    + pose proof (wf_source _ Hwf n Hn) as Hlt.
      destruct (lookup_lt_is_Some_2 _ _ Hlt) as [nd Hnd].
      assert (sounding nd = false) as Hsil.
      { pose proof (audible_nil _ n Ha) as Hp. unfold playing, source_of in Hp.
        by rewrite Hnd in Hp. }
      split.
      * change (visible (alter_source (set_n_stopped true) n w) = visible w).
        by eapply visible_touch.
      * intros tr. eapply run_touch; eauto.
    + split; [done|]. intros tr. by destruct (run tr w).
  - intros Hc.
    assert (isRecording (home w) = false) as Hir.
    { destruct (isRecording (home w)) eqn:Hir; [|done].
      destruct (wf_isRecording _ Hwf Hir) as (r & _ & rc & Hr & Hst).
      pose proof (capturing_nil _ r Hc) as Hn.
      unfold is_recording in Hn. by rewrite Hr, Hst in Hn. }
    pose proof (wf_recorder_ref _ Hwf) as Href.
    open_world w. cbn [home platform mediaRecorderRef isRecording recorders] in *. subst ir.
    destruct mrr as [r|]; [|done].
    destruct (lookup_lt_is_Some_2 _ _ (Href r eq_refl)) as [rc Hr].
    pose proof (capturing_nil _ r Hc) as Hn.
    unfold is_recording, recorder_of in Hn. cbn in Hn. rewrite Hr in Hn.
    unfold_code. rewrite Hr. destruct (r_state rc); [done|done].
Qed.

Lemma stop_idle_noop_witness :
  reachable (after tr_ran_out) ∧
  audible (after tr_ran_out) = [] ∧ capturing (after tr_ran_out) = [] ∧
  audioSource (player (after tr_ran_out)) = Some 0 ∧
  mediaRecorderRef (home (after tr_ran_out)) = Some 0 ∧
  handleStopRecording (after tr_ran_out) = (Returned tt, after tr_ran_out) ∧
  ∃ w', stopAudio (after tr_ran_out) = (Returned tt, w') ∧
    visible w' = visible (after tr_ran_out) ∧
    match run [ClickPlay sample] (after tr_ran_out), run [ClickPlay sample] w' with
    | Some a, Some b => visible b = visible a
    | None, None => True
    | _, _ => False
    end.
Proof.
  assert (Hr : reachable (after tr_ran_out)) by runs.
  destruct (stop_idle_noop _ Hr) as (_ & _ & H3 & H4).
  split; [exact Hr|]. split; [reflexivity|]. split; [reflexivity|].
  split; [reflexivity|]. split; [reflexivity|]. split; [apply H4; reflexivity|].
  destruct (H3 eq_refl) as (w' & H5 & _ & _ & _ & _ & H6 & H7).
  exists w'. split; [exact H5|]. split; [exact H6 | exact (H7 [ClickPlay sample])].
Defined.

(** ** A play that runs to its end *)

Lemma advance_lookup w t k k' :
  tasks w !! t = Some k → tasks (advance t k' w) !! t = Some k'.
Proof.
  intros H. unfold advance, with_tasks. cbn.
  apply list_lookup_insert_eq. by eapply lookup_lt_Some.
Qed.

Lemma step_fetched w t url c :
  tasks w !! t = Some (PlayTask (AwaitFetch url) c) →
  step (Fetched t ok) w = Some (advance t (PlayTask AwaitBody c) w).
Proof.
  intros H. unfold step, play_caller, playAudio_fetched. rewrite H. cbn.
  by destruct c.
Qed.

Lemma step_body w t c buf :
  tasks w !! t = Some (PlayTask AwaitBody c) →
  is_Some (audioContext (player w)) →
  step (BodyRead t (Returned buf)) w = Some (advance t (PlayTask (AwaitDecode buf) c) w).
Proof.
  intros H [ctx Hc]. unfold step, play_caller, playAudio_body. rewrite H, Hc. cbn.
  by destruct c.
Qed.

(** The last stretch of [playAudio]: the new node is the one the player
    holds, it has the decoded buffer, goes to [this.destination] if there is
    one and to the context's own destination otherwise, and sounds. *)
Lemma playAudio_decoded_starts w t buf c pcm ctx :
  tasks w !! t = Some (PlayTask (AwaitDecode buf) c) →
  audioContext (player w) = Some ctx →
  ∃ w', playAudio_decoded t (Returned pcm) w
          = Some (Resolved (length (sources (platform w))), w') ∧
    audioSource (player w') = Some (length (sources (platform w))) ∧
    sources (platform w') = sources (platform w) ++
      [{| n_buffer := Some pcm;
          n_connected := [match destination (player w) with
                          | Some d => StreamDestination d
                          | None => ContextDestination ctx
                          end];
          n_started := true; n_stopped := false; n_ended := false;
          n_onended := false |}] ∧
    playing w' (length (sources (platform w))) = true ∧
    audioContext (player w') = Some ctx ∧
    destination (player w') = destination (player w) ∧
    home w' = home w ∧
    tasks w' = <[t := Settled]> (tasks w).
Proof.
  intros Ht Hc. open_world w. cbn [tasks player audioContext] in *. subst ac.
  unfold_code. rewrite Ht. crunch.
  all: eexists; split; [reflexivity|]; cbn; rewrite ?lookup_snoc; done.
Qed.

Lemma step_decoded w t buf c pcm ctx :
  tasks w !! t = Some (PlayTask (AwaitDecode buf) c) →
  audioContext (player w) = Some ctx →
  ∃ w', step (Decoded t (Returned pcm)) w = Some w' ∧
    audioSource (player w') = Some (length (sources (platform w))) ∧
    playing w' (length (sources (platform w))) = true ∧
    length (sources (platform w')) = S (length (sources (platform w))) ∧
    sources_le (sources (platform w)) (sources (platform w')) ∧
    (n_buffer <$> source_of w' (length (sources (platform w)))) = Some (Some pcm) ∧
    (n_connected <$> source_of w' (length (sources (platform w)))) =
      Some [match destination (player w) with
            | Some d => StreamDestination d
            | None => ContextDestination ctx
            end].
Proof.
  intros Ht Hc.
  destruct (playAudio_decoded_starts w t buf c pcm ctx Ht Hc)
    as (w' & Hd & Hsrc & Hs & Hp & _ & _ & Hh & _).
  unfold step, play_caller. rewrite Ht. cbn. rewrite Hd. cbn.
  destruct c; cbn.
  - exists w'. rewrite Hs. split; [done|]. split; [done|]. split; [done|].
    rewrite length_app. cbn. split; [lia|]. split; [apply sources_le_app|].
    unfold source_of. rewrite Hs, lookup_snoc. done.
  - eexists. split; [reflexivity|].
    unfold playing, source_of, alter_source, with_home, with_platform. cbn.
    rewrite Hs, alter_snoc, lookup_snoc, length_app. cbn.
    split; [done|]. split; [done|]. split; [lia|]. split; [apply sources_le_app|]. done.
Qed.

Lemma play_lands w t url c buf pcm :
  wf w → tasks w !! t = Some (PlayTask (AwaitFetch url) c) →
  ∃ w', run [Fetched t ok; BodyRead t (Returned buf); Decoded t (Returned pcm)] w = Some w' ∧
    audioSource (player w') = Some (length (sources (platform w))) ∧
    playing w' (length (sources (platform w))) = true ∧
    length (sources (platform w')) = S (length (sources (platform w))) ∧
    sources_le (sources (platform w)) (sources (platform w')) ∧
    (n_buffer <$> source_of w' (length (sources (platform w)))) = Some (Some pcm).
Proof.
  intros Hwf Ht.
  pose proof (wf_play _ Hwf) as Hp. rewrite Forall_lookup in Hp.
  destruct (Hp _ _ Ht) as [ctx Hc].
  cbn [run]. rewrite (step_fetched _ _ _ _ Ht).
  pose proof (advance_lookup w t _ (PlayTask AwaitBody c) Ht) as H1.
  rewrite (step_body _ _ _ buf H1) by (cbn; eauto).
  pose proof (advance_lookup _ t _ (PlayTask (AwaitDecode buf) c) H1) as H2.
  destruct (step_decoded _ t buf c pcm ctx H2 Hc) as (w' & Hs & ? & ? & ? & ? & ? & _).
  rewrite Hs. exists w'. done.
Qed.




(** ** Stop during a fetch *)






(** ** Preemption and the completion callback *)

Lemma run_no_ended tr : ∀ w w' n,
  run tr w = Some w' →
  n < length (sources (platform w)) →
  playing w n = false → Ended n ∉ tr.
Proof.
  induction tr as [|l tr IH]; intros w w' n Hr Hn Hp.
  - apply not_elem_of_nil.
  - cbn in Hr. destruct (step l w) as [w1|] eqn:Hs; [|done].
    apply not_elem_of_cons. split.
    + intros <-. cbn in Hs. by rewrite Hp in Hs.
    + eapply (IH w1 w' n); [done| |].
      * pose proof (step_sources _ _ _ Hs) as Hle.
        destruct (lookup_lt_is_Some_2 _ _ Hn) as [a Ha].
        destruct (Hle _ _ Ha) as (b & Hb & _). by eapply lookup_lt_Some.
      * apply (run_silent [l] w w1 n); [|done|done]. cbn. by rewrite Hs.
Qed.

Lemma sources_le_onended w w' n :
  sources_le (sources (platform w)) (sources (platform w')) →
  n < length (sources (platform w)) →
  (n_onended <$> source_of w' n) = (n_onended <$> source_of w n).
Proof.
  intros Hle Hn. unfold source_of.
  destruct (lookup_lt_is_Some_2 _ _ Hn) as [a Ha].
  destruct (Hle _ _ Ha) as (b & Hb & _ & _ & _ & Ho & _).
  rewrite Ha, Hb. cbn. by rewrite Ho.
Qed.

Lemma sources_le_playing w w' m :
  sources_le (sources (platform w)) (sources (platform w')) →
  m < length (sources (platform w)) →
  playing w m = false → playing w' m = false.
Proof.
  intros Hle Hm. unfold playing, source_of.
  destruct (lookup_lt_is_Some_2 _ _ Hm) as [a Ha]. rewrite Ha.
  destruct (Hle _ _ Ha) as (b & -> & Hab). by apply node_le_silent.
Qed.

(** [playAudio] on a player with a context and a source: the source is
    stopped, still named by the field, and the call is suspended. *)
Lemma playAudio_preempts w url c n :
  wf w → is_Some (audioContext (player w)) → audioSource (player w) = Some n →
  ∃ w1, playAudio url c w = (Pending (length (tasks w)), w1) ∧
    playing w1 n = false ∧
    audioSource (player w1) = Some n ∧
    length (sources (platform w1)) = length (sources (platform w)) ∧
    sources_le (sources (platform w)) (sources (platform w1)) ∧
    tasks w1 = tasks w ++ [PlayTask (AwaitFetch url) c] ∧
    home w1 = home w.
Proof.
  intros Hwf [ctx Hc] Hsrc. pose proof (wf_source _ Hwf) as Hs.
  pose proof (wf_started _ Hwf) as Hst. rewrite Forall_lookup in Hst.
  open_world w. cbn [player platform audioSource audioContext sources] in *. subst.
  destruct (lookup_lt_is_Some_2 _ _ (Hs n eq_refl)) as [nd Hn].
  pose proof (Hst _ _ Hn) as Hnd.
  unfold_code. rewrite Hn, Hnd. cbn.
  eexists. split; [reflexivity|]. cbn. rewrite list_lookup_alter_eq, Hn. cbn.
  repeat split.
  - unfold sounding. cbn. by rewrite andb_false_r.
  - by rewrite length_alter.
  - apply sources_le_alter, node_le_stopped.
Qed.

(** C2, as claimed, fails: two plays are begun one after the other before
    either fetch has come back; both land, the sources of both sound at
    once, and the first one then runs out on its own, which runs its
    completion callback while the second still sounds.  (On the page the
    play button is still enabled while the first play fetches.) *)
Lemma overlapping_plays_both_sound :
  runnable tr_two_clicks = true ∧
  onClick PlayAudioButton (after [InitEffect true; ClickPlay sample])
    = Some (ClickPlay sample) ∧
  audible (after tr_two_clicks) = [0; 1] ∧
  (n_buffer <$> source_of (after tr_two_clicks) 0) = Some (Some [1%Z]) ∧
  (n_stopped <$> source_of (after tr_two_clicks) 0) = Some false ∧
  isPlaying (home (after tr_two_clicks)) = true ∧
  (isPlaying <$> (home <$> step (Ended 0) (after tr_two_clicks))) = Some false ∧
  (audible <$> step (Ended 0) (after tr_two_clicks)) = Some [1].
Proof. vm_compute. done. Qed.

(** C2, amended: the source the player holds is silenced by [stopAudio], and
    by the first stretch of a later [playAudio]; when that later play lands,
    its source sounds, the earlier one does not, and nothing else started.
    A source that is silent never sounds again and its buffer never runs
    out, along any later steps.  Its [onended] callback is left as it was
    (the code never detaches one). *)
Theorem stopped_source_stays_silent (w : World) (n : nat)
  (Hw : reachable w) (Hn : audioSource (player w) = Some n) :
  (∃ w1, stopAudio w = (Returned tt, w1) ∧ playing w1 n = false ∧
     (n_onended <$> source_of w1 n) = (n_onended <$> source_of w n)) ∧
  (∀ url c, is_Some (audioContext (player w)) →
     ∃ w1, playAudio url c w = (Pending (length (tasks w)), w1) ∧
       playing w1 n = false ∧
       (n_onended <$> source_of w1 n) = (n_onended <$> source_of w n) ∧
       ∀ buf pcm, ∃ w2,
         run [Fetched (length (tasks w)) ok; BodyRead (length (tasks w)) (Returned buf);
              Decoded (length (tasks w)) (Returned pcm)] w1 = Some w2 ∧
         audioSource (player w2) = Some (length (sources (platform w))) ∧
         playing w2 (length (sources (platform w))) = true ∧
         playing w2 n = false ∧
         ((∀ m, playing w m = true → m = n) →
          ∀ m, playing w2 m = true → m = length (sources (platform w)))) ∧
  (∀ w1 tr w2, n < length (sources (platform w1)) → playing w1 n = false →
     run tr w1 = Some w2 →
     playing w2 n = false ∧ (Ended n ∉ tr) ∧
     (n_onended <$> source_of w2 n) = (n_onended <$> source_of w1 n)).
Proof.
  pose proof (reachable_wf _ Hw) as Hwf.
  pose proof (wf_source _ Hwf _ Hn) as Hlt.
  split; [|split].
  - destruct (stopAudio_returns _ Hwf) as (w1 & Hs & _ & _ & _ & _ & _ & _ & Hle & Hsil).
    exists w1. split; [done|]. split; [by apply Hsil|].
    by apply sources_le_onended.
  - intros url c Hctx.
    destruct (playAudio_preempts w url c n Hwf Hctx Hn)
      as (w1 & Hp & Hsil & _ & Hlen & Hle & Hts & _).
    exists w1. split; [done|]. split; [done|]. split; [by apply sources_le_onended|].
    intros buf pcm.
    assert (wf w1) as Hwf1.
    { destruct c.
      - apply (step_wf (CallPlayAudio url) w); [done|]. cbn. by rewrite Hp.
      - apply (step_wf (ClickPlay url) w); [done|]. cbn.
        unfold handlePlayClick. by rewrite Hp. }
    assert (tasks w1 !! length (tasks w) = Some (PlayTask (AwaitFetch url) c)) as Ht1.
    { rewrite Hts. apply lookup_snoc. }
    destruct (play_lands w1 _ url c buf pcm Hwf1 Ht1)
      as (w2 & Hr & Hsrc & Hpl & Hlen2 & Hle2 & _).
    rewrite Hlen in *.
    assert (playing w2 n = false) as Hn2.
    { apply (sources_le_playing w1 w2); [done | by rewrite Hlen | done]. }
    exists w2. split; [done|]. split; [done|]. split; [done|]. split; [done|].
    intros Honly m Hm.
    destruct (decide (m = length (sources (platform w)))) as [|Hne]; [done|].
    exfalso. pose proof (playing_lt _ _ Hm) as Hmlt. rewrite Hlen2 in Hmlt.
    assert (m < length (sources (platform w))) as Hmw by lia.
    destruct (playing w m) eqn:Hpm.
    + apply Honly in Hpm. subst. by rewrite Hn2 in Hm.
    + assert (playing w1 m = false) as Hm1 by (by apply (sources_le_playing w w1)).
      assert (playing w2 m = false) as Hm2.
      { apply (sources_le_playing w1 w2); [done | by rewrite Hlen | done]. }
      by rewrite Hm2 in Hm.
  - intros w1 tr w2 Hlt1 Hsil Hr. split; [|split].
    + by apply (run_silent tr w1 w2 n).
    + by apply (run_no_ended tr w1 w2 n).
    + apply sources_le_onended; [|done]. by apply run_sources with tr.
Qed.

Lemma stopped_source_stays_silent_witness :
  reachable (after tr_sounding) ∧
  audioSource (player (after tr_sounding)) = Some 0 ∧
  playing (after tr_sounding) 0 = true ∧
  ∃ w1 w2, playAudio (SiteUrl "/b.mp3") PlayClick (after tr_sounding) = (Pending 1, w1) ∧
    playing w1 0 = false ∧
    run [Fetched 1 ok; BodyRead 1 (Returned []); Decoded 1 (Returned [2%Z])] w1 = Some w2 ∧
    playing w2 1 = true ∧ playing w2 0 = false.
Proof.
  assert (Hr : reachable (after tr_sounding)) by runs.
  split; [exact Hr|]. split; [reflexivity|]. split; [reflexivity|].
  destruct (stopped_source_stays_silent (after tr_sounding) 0 Hr eq_refl) as (_ & H & _).
  destruct (H (SiteUrl "/b.mp3") PlayClick (ex_intro _ 0 eq_refl))
    as (w1 & H1 & H2 & _ & H3).
  destruct (H3 [] [2%Z]) as (w2 & H4 & _ & H5 & H6 & _).
  exists w1, w2. split; [exact H1|]. split; [exact H2|]. split; [exact H4|].
  split; [exact H5|exact H6].
Defined.

(** The callback of a stopped source is still attached: a platform that
    dispatches [ended] for a source stopped by [stop()] runs it. *)
Lemma ended_after_stop_runs_callback :
  runnable (tr_sounding ++ [CallStopAudio]) = true ∧
  (n_onended <$> source_of (after (tr_sounding ++ [CallStopAudio])) 0) = Some true ∧
  audioSourceRef (home (after (tr_sounding ++ [CallStopAudio]))) = Some 0 ∧
  (audioSourceRef <$> (home <$> step (EndedAfterStop 0) (after (tr_sounding ++ [CallStopAudio]))))
    = Some None.
Proof. vm_compute. done. Qed.

(** ** Failures *)

(** C3, as claimed, fails: a source sounds, a second play is begun and its
    fetch fails.  The failure reaches the caller, but the failed call has
    silenced the source that was sounding.  And a denied microphone request
    does not reach the caller of [handleStartRecording]: the promise
    resolves. *)
Lemma failed_play_stopped_prior :
  runnable tr_second_play_fails = true ∧
  audible (after tr_sounding) = [0] ∧
  (fst <$> playAudio_fetched 1 (Threw FetchError)
     (playAudio (SiteUrl "/missing.mp3") Direct (after tr_sounding)).2)
    = Some (Rejected FetchError) ∧
  audible (after tr_second_play_fails) = [] ∧
  (fst <$> handleStartRecording_resume 0 (Threw PermissionError) (after [StartRecording]))
    = Some (Resolved tt).
Proof. vm_compute. done. Qed.

(** C3, amended: [init] and [playAudio] hand every failure to their caller
    as the rejection of their promise, and a failure arriving at an [await]
    changes nothing there but the entry of the suspended call; no source is
    made or started by a failed play.  The source the player held was
    however stopped before the fetch began, so after a failed fetch or
    decode it is silent (and still named by the field).  A denied microphone
    request is caught by [handleStartRecording] and the promise resolves;
    the recording state is untouched.  [handleStopRecording] does not throw.
    The player stays usable: a suspended play whose decode succeeds starts
    its source. *)
Theorem failures_surface (w : World) (Hw : reachable w) :
  (audioContext (player w) = None →
     ∀ dev, init dev false w = (Rejected ContextError, w)) ∧
  (∀ t a dev e, tasks w !! t = Some (InitTask a dev) →
     init_resume t (Threw e) w = Some (Rejected e, settle t w)) ∧
  (audioContext (player w) = None →
     ∀ url c, playAudio url c w = (Rejected NotInitialized, w)) ∧
  (∀ t url c e, tasks w !! t = Some (PlayTask (AwaitFetch url) c) →
     playAudio_fetched t (Threw e) w = Some (Rejected e, settle t w)) ∧
  (∀ t c e, tasks w !! t = Some (PlayTask AwaitBody c) →
     playAudio_body t (Threw e) w = Some (Rejected e, settle t w)) ∧
  (∀ t buf c e, tasks w !! t = Some (PlayTask (AwaitDecode buf) c) →
     playAudio_decoded t (Threw e) w = Some (Rejected e, settle t w)) ∧
  (∀ n url c, is_Some (audioContext (player w)) → audioSource (player w) = Some n →
     ∃ w1, playAudio url c w = (Pending (length (tasks w)), w1) ∧
       playing w1 n = false ∧ audioSource (player w1) = Some n ∧
       length (sources (platform w1)) = length (sources (platform w))) ∧
  (∀ t e, tasks w !! t = Some MicTask →
     handleStartRecording_resume t (Threw e) w = Some (Resolved tt, settle t w)) ∧
  (∃ w1, handleStopRecording w = (Returned tt, w1)) ∧
  (∀ t buf c pcm, tasks w !! t = Some (PlayTask (AwaitDecode buf) c) →
     ∃ w1, playAudio_decoded t (Returned pcm) w
             = Some (Resolved (length (sources (platform w))), w1) ∧
       audioSource (player w1) = Some (length (sources (platform w))) ∧
       playing w1 (length (sources (platform w))) = true).
Proof.
  pose proof (reachable_wf _ Hw) as Hwf.
  repeat apply conj.
  - intros Hc dev. open_world w. cbn in Hc. subst. unfold_code. by destruct (truthy dev).
  - intros t a dev e Ht. unfold init_resume. by rewrite Ht.
  - intros Hc url c. open_world w. cbn in Hc. by subst.
  - intros t url c e Ht. unfold playAudio_fetched. by rewrite Ht.
  - intros t c e Ht. unfold playAudio_body. by rewrite Ht.
  - intros t buf c e Ht. unfold playAudio_decoded. by rewrite Ht.
  - intros n url c Hc Hn.
    destruct (playAudio_preempts w url c n Hwf Hc Hn) as (w1 & ? & ? & ? & ? & _).
    by exists w1.
  - intros t e Ht. unfold handleStartRecording_resume. by rewrite Ht.
  - pose proof (wf_recorder_ref _ Hwf) as Href.
    open_world w. cbn [home platform mediaRecorderRef recorders] in Href.
    destruct mrr as [r|]; [|by eexists].
    destruct (lookup_lt_is_Some_2 _ _ (Href r eq_refl)) as [rc Hr].
    unfold_code. rewrite Hr. destruct (r_state rc); by eexists.
  - intros t buf c pcm Ht.
    pose proof (wf_play _ Hwf) as Hp. rewrite Forall_lookup in Hp.
    destruct (Hp _ _ Ht) as [ctx Hc].
    destruct (playAudio_decoded_starts w t buf c pcm ctx Ht Hc) as (w1 & ? & ? & _ & ? & _).
    by exists w1.
Qed.

Lemma failures_surface_witness :
  reachable (after tr_sounding) ∧
  ∃ w1, playAudio (SiteUrl "/missing.mp3") Direct (after tr_sounding) = (Pending 1, w1) ∧
    playing w1 0 = false ∧ audioSource (player w1) = Some 0 ∧
    playAudio_fetched 1 (Threw FetchError) w1 = Some (Rejected FetchError, settle 1 w1).
Proof.
  assert (Hr : reachable (after tr_sounding)) by runs.
  split; [exact Hr|].
  destruct (failures_surface (after tr_sounding) Hr) as (_ & _ & _ & _ & _ & _ & H & _).
  destruct (H 0 (SiteUrl "/missing.mp3") Direct (ex_intro _ 0 eq_refl) eq_refl)
    as (w1 & H1 & H2 & H3 & _).
  exists w1. split; [exact H1|]. split; [exact H2|]. split; [exact H3|].
  assert (Hr1 : reachable w1).
  { apply (reachable_step (CallPlayAudio (SiteUrl "/missing.mp3")) (after tr_sounding));
      [exact Hr|]. cbn [step]. rewrite H1. reflexivity. }
  destruct (failures_surface w1 Hr1) as (_ & _ & _ & H4 & _).
  apply (H4 1 (SiteUrl "/missing.mp3") Direct FetchError).
  apply (f_equal (λ p, tasks p.2 !! 1)) in H1. cbn in H1. symmetry. exact H1.
Defined.

(** ** The output route *)

(** Selecting a device makes a new destination node the route, whatever
    the route was. *)
Lemma init_device_replaces_route w dev ctor_ok :
  truthy (Some dev) = true → is_Some (audioContext (player w)) →
  destination (player (init (Some dev) ctor_ok w).2)
    = Some (length (destinations (platform w))).
Proof.
  intros Ht [c Hc]. open_world w. cbn in Hc. subst. unfold_code. by rewrite Ht.
Qed.

(** A falsy device id leaves the route as it is. *)
Lemma init_default_keeps_route w dev ctor_ok :
  truthy dev = false →
  destination (player (init dev ctor_ok w).2) = destination (player w).
Proof.
  intros Ht. open_world w. unfold_code. rewrite Ht. by destruct ac, ctor_ok.
Qed.

(** From "D" to "E": the play goes to "E" only.  With no device ever
    selected it goes to the default output. *)
Lemma route_replaced_by_other_device :
  runnable tr_other_device = true ∧
  routed_to (after tr_other_device) 0 = ["E"] ∧
  routed_to (after tr_sounding) 0 = [""].
Proof. vm_compute. done. Qed.

(** C4 at its failing input: device "D" is selected and bound, then the
    default output is selected and [init] runs again, then a clip is played.
    The selection is the default one, yet [this.destination] still is the
    node made for "D", the new source is connected to it, and the sound
    comes out of "D". *)
Theorem default_after_device_still_routed :
  runnable tr_back_to_default = true ∧
  selectedOutput (home (after tr_back_to_default)) = "" ∧
  destination (player (after tr_back_to_default)) = Some 0 ∧
  audible (after tr_back_to_default) = [0] ∧
  (n_connected <$> source_of (after tr_back_to_default) 0) = Some [StreamDestination 0] ∧
  routed_to (after tr_back_to_default) 0 = ["D"].
Proof. vm_compute. done. Qed.

(** * Further properties of the page *)

(** ** Plays issued one at a time *)

Lemma playing_sounds w n : playing w n = sounds (sources (platform w)) n.
Proof. reflexivity. Qed.

Lemma sounds_stop l k n :
  sounds (alter (set_n_stopped true) k l) n = true → sounds l n = true ∧ k ≠ n.
Proof.
  unfold sounds. rewrite list_lookup_alter. case_decide; subst.
  - destruct (l !! n) as [nd|]; cbn; [|done]. unfold sounding. cbn.
    by rewrite andb_false_r.
  - done.
Qed.

Lemma sounds_ended l k n :
  sounds (alter (set_n_ended true) k l) n = true → sounds l n = true ∧ k ≠ n.
Proof.
  unfold sounds. rewrite list_lookup_alter. case_decide; subst.
  - destruct (l !! n) as [nd|]; cbn; [|done]. unfold sounding. cbn.
    by rewrite andb_false_r.
  - done.
Qed.

Lemma sounds_snoc l x n :
  sounds (l ++ [x]) n = true → sounds l n = true ∨ n = length l.
Proof.
  unfold sounds. destruct (decide (n < length l)) as [Hlt|Hge].
  - rewrite lookup_app_l by done. by left.
  - destruct (decide (n = length l)); [by right|].
    rewrite lookup_ge_None_2; [done|]. rewrite length_app. cbn. lia.
Qed.

Lemma count_plays_snoc ts t :
  count_plays (ts ++ [t]) = count_plays ts + (if is_play_task t then 1 else 0).
Proof.
  induction ts as [|x ts IH]; cbn; [by destruct (is_play_task t)|].
  rewrite IH. destruct (is_play_task x), (is_play_task t); lia.
Qed.

Lemma count_plays_insert ts i t t' :
  ts !! i = Some t →
  count_plays (<[i:=t']> ts) + (if is_play_task t then 1 else 0)
  = count_plays ts + (if is_play_task t' then 1 else 0).
Proof.
  revert i. induction ts as [|x ts IH]; intros [|i] H; try done.
  - injection H as ->. cbn. destruct (is_play_task t), (is_play_task t'); lia.
  - change (<[S i:=t']> (x :: ts)) with (x :: <[i:=t']> ts).
    change ((x :: ts) !! S i) with (ts !! i) in H.
    specialize (IH _ H). cbn [count_plays].
    destruct (is_play_task x), (is_play_task t), (is_play_task t'); lia.
Qed.

Lemma single_flight_world0 : single_flight world0.
Proof.
  split; cbn; [lia|]. intros n H. unfold sounds in H. by destruct n.
Qed.

Ltac sf_leaf Hp Ho :=
  cbn in *;
  try match goal with
      | H : ?ts !! ?t = Some ?k |- context [count_plays (<[?t:=?k']> ?ts)] =>
          pose proof (count_plays_insert ts t k k' H); cbn in *
      end;
  rewrite ?count_plays_snoc; cbn;
  first
    [ lia
    | exact Ho
    | let m := fresh "m" in
      let Hm := fresh "Hm" in
      intros m Hm;
      try apply sounds_stop in Hm as [Hm ?];
      try apply sounds_ended in Hm as [Hm ?];
      try (apply sounds_snoc in Hm as [Hm| ->]);
      try (destruct (Ho _ Hm) as [? ?]); simplify_eq; split; first [done | lia] ].

Lemma serial_step_single_flight l w w' :
  single_flight w → serial_step l w = Some w' → single_flight w'.
Proof.
  intros [Hp Ho] Hs. unfold serial_step, in_flight in Hs.
  destruct (begins_play l) eqn:Hb; cbn in Hs.
  - destruct (Nat.eqb_spec (count_plays (tasks w)) 0) as [H0|]; [|done]. cbn in Hs.
    open_world w. destruct l; try done; unfold_code; crunch.
    all: split; sf_leaf Hp Ho.
  - open_world w. destruct l; try done; unfold_code; crunch.
    all: try match goal with
         | H : Build_Platform _ _ _ _ _ _ _ = _ |- _ => injection H as -> -> -> -> -> -> ->
         end.
    all: simplify_eq; split; sf_leaf Hp Ho.
Qed.

Lemma serial_run_single_flight tr : ∀ w w',
  single_flight w → serial_run tr w = Some w' → single_flight w'.
Proof.
  induction tr as [|l tr IH]; cbn; intros w w' Hw Hr.
  - by simplify_eq.
  - destruct (serial_step l w) as [w1|] eqn:Hs; [|done].
    eapply IH; [|exact Hr]. by eapply serial_step_single_flight.
Qed.

Lemma serial_run_run tr : ∀ w w', serial_run tr w = Some w' → run tr w = Some w'.
Proof.
  induction tr as [|l tr IH]; cbn; intros w w' Hr; [done|].
  unfold serial_step in Hr.
  destruct (begins_play l && in_flight w); [done|].
  destruct (step l w) as [w1|]; [by apply IH | done].
Qed.

(** X1: when no play is begun while an earlier one is still suspended, at
    most one source sounds at any time, and it is the source the player
    holds; while a play is suspended nothing sounds. *)
Theorem serial_plays_single_flight (w : World) (Hw : serially_reachable w) :
  reachable w ∧
  (∀ n m, playing w n = true → playing w m = true → n = m) ∧
  (∀ n, playing w n = true → audioSource (player w) = Some n) ∧
  (in_flight w = true → ∀ n, playing w n = false).
Proof.
  destruct Hw as [tr Hr].
  pose proof (serial_run_single_flight tr _ _ single_flight_world0 Hr) as [Hp Ho].
  split; [exists tr; by apply serial_run_run|].
  split; [|split].
  - intros n m Hn Hm. rewrite playing_sounds in Hn, Hm.
    destruct (Ho _ Hn) as [Hn' _], (Ho _ Hm) as [Hm' _]. congruence.
  - intros n Hn. rewrite playing_sounds in Hn. by destruct (Ho _ Hn).
  - intros Hf n. destruct (playing w n) eqn:Hn; [|done].
    rewrite playing_sounds in Hn. destruct (Ho _ Hn) as [_ H0].
    unfold in_flight in Hf. by rewrite H0 in Hf.
Qed.


Lemma serial_plays_single_flight_witness :
  serially_reachable (after tr_one_after_another) ∧
  playing (after tr_one_after_another) 1 = true ∧
  audioSource (player (after tr_one_after_another)) = Some 1.
Proof.
  assert (Hr : serially_reachable (after tr_one_after_another)).
  { exists tr_one_after_another. vm_compute. reflexivity. }
  split; [exact Hr|]. split; [reflexivity|].
  destruct (serial_plays_single_flight _ Hr) as (_ & _ & H & _).
  apply H. reflexivity.
Defined.

(** ** What the flags of the page stand for *)

Lemma has_callback_alter l f k n :
  (∀ a, n_onended (f a) = n_onended a) →
  has_callback l n → has_callback (alter f k l) n.
Proof.
  intros Hf (nd & Hl & Ho). unfold has_callback.
  rewrite list_lookup_alter. case_decide; subst; rewrite Hl; cbn.
  - exists (f nd). split; [done | by rewrite Hf].
  - exists nd. by split.
Qed.

Lemma has_callback_app l x n : has_callback l n → has_callback (l ++ x) n.
Proof.
  intros (nd & Hl & Ho). exists nd. split; [|done]. by apply lookup_app_l_Some.
Qed.

Lemma has_callback_snoc l x : n_onended x = true → has_callback (l ++ [x]) (length l).
Proof. intros Hx. exists x. split; [apply lookup_snoc | done]. Qed.

Ltac fb_leaf Hp Hr :=
  cbn in *;
  first
    [ done
    | exact Hp
    | exact Hr
    | by eauto
    | let m := fresh "m" in
      let Hm := fresh "Hm" in
      intros m Hm; simplify_eq;
      first
        [ by apply has_callback_snoc
        | apply has_callback_app; by apply Hr
        | apply has_callback_alter; [done | by apply Hr]
        | by apply Hr ] ].

Lemma flags_backed_world0 : flags_backed world0.
Proof. split; cbn; done. Qed.

Lemma step_flags_backed l w w' :
  flags_backed w → step l w = Some w' → flags_backed w'.
Proof.
  intros [Hp Hr] Hs. open_world w. destruct l; unfold_code; crunch.
  all: try match goal with
       | H : Build_Platform _ _ _ _ _ _ _ = _ |- _ => injection H as -> -> -> -> -> -> ->
       end.
  all: simplify_eq; split; fb_leaf Hp Hr.
Qed.

Lemma reachable_flags_backed w : reachable w → flags_backed w.
Proof.
  intros [tr Hr]. revert Hr. generalize flags_backed_world0. generalize world0.
  induction tr as [|l tr IH]; cbn; intros w0 H0 Hr.
  - by simplify_eq.
  - destruct (step l w0) as [w1|] eqn:Hs; [|done].
    eapply IH; [|exact Hr]. by eapply step_flags_backed.
Qed.

(** X2: the two flags of the page are backed by its refs.  While
    [isPlaying] holds, [audioSourceRef] names a source node that was started
    and carries the completion callback; while [isRecording] holds,
    [mediaRecorderRef] names a recorder that is recording. *)
Theorem flags_name_live_objects (w : World) (Hw : reachable w) :
  (isPlaying (home w) = true →
     ∃ n nd, audioSourceRef (home w) = Some n ∧ source_of w n = Some nd ∧
             n_started nd = true ∧ n_onended nd = true) ∧
  (isRecording (home w) = true →
     ∃ r, mediaRecorderRef (home w) = Some r ∧ is_recording w r = true).
Proof.
  pose proof (reachable_wf _ Hw) as Hwf.
  pose proof (reachable_flags_backed _ Hw) as [Hp Hr].
  split.
  - intros Hip. destruct (Hp Hip) as [n Hn].
    destruct (Hr _ Hn) as (nd & Hl & Ho).
    exists n, nd. split; [done|]. split; [done|]. split; [|done].
    pose proof (wf_started _ Hwf) as Hst. rewrite Forall_lookup in Hst.
    by apply (Hst n).
  - intros Hir. destruct (wf_isRecording _ Hwf Hir) as (r & Href & rc & Hl & Hst).
    exists r. split; [done|]. unfold is_recording. by rewrite Hl, Hst.
Qed.

Lemma flags_name_live_objects_witness :
  reachable (after tr_sounding) ∧
  isPlaying (home (after tr_sounding)) = true ∧
  ∃ n nd, audioSourceRef (home (after tr_sounding)) = Some n ∧
    source_of (after tr_sounding) n = Some nd ∧
    n_started nd = true ∧ n_onended nd = true.
Proof.
  assert (Hr : reachable (after tr_sounding)) by runs.
  split; [exact Hr|]. split; [reflexivity|].
  destruct (flags_name_live_objects _ Hr) as [H _]. apply H. reflexivity.
Defined.

(** ** Calls that cannot throw *)

(** [playAudio] on a player with a context always gets as far as its fetch:
    the source it stops first, if any, exists and was started. *)
Lemma playAudio_suspends w url c :
  wf w → is_Some (audioContext (player w)) →
  ∃ w1, playAudio url c w = (Pending (length (tasks w)), w1) ∧
    tasks w1 = tasks w ++ [PlayTask (AwaitFetch url) c] ∧
    home w1 = home w ∧
    audioSource (player w1) = audioSource (player w) ∧
    audioContext (player w1) = audioContext (player w) ∧
    destination (player w1) = destination (player w) ∧
    length (sources (platform w1)) = length (sources (platform w)) ∧
    sources_le (sources (platform w)) (sources (platform w1)) ∧
    (∀ n, audioSource (player w) = Some n → playing w1 n = false).
Proof.
  intros Hwf [ctx Hc]. pose proof (wf_source _ Hwf) as Hs.
  pose proof (wf_started _ Hwf) as Hst. rewrite Forall_lookup in Hst.
  open_world w. cbn [player platform audioSource audioContext sources] in *. subst.
  destruct asrc as [n|].
  - destruct (lookup_lt_is_Some_2 _ _ (Hs n eq_refl)) as [nd Hn].
    pose proof (Hst _ _ Hn) as Hnd.
    unfold_code. rewrite Hn, Hnd. cbn.
    eexists. split; [reflexivity|]. cbn. repeat split.
    + by rewrite length_alter.
    + apply sources_le_alter, node_le_stopped.
    + intros ? [= <-]. rewrite list_lookup_alter_eq, Hn. cbn.
      unfold sounding. cbn. by rewrite andb_false_r.
  - unfold_code. eexists. split; [reflexivity|]. cbn. repeat split; try done.
    apply sources_le_refl.
Qed.

(** X3: in every reachable world each source node in the store has been
    started (a node is started in the run that creates it), and therefore
    the [stop()] calls of the player never throw: [stopAudio] and
    [handleStopClick] return normally, and [playAudio] either is rejected
    for the missing context, changing nothing, or gets as far as its
    fetch. *)
Theorem stop_calls_never_throw (w : World) (Hw : reachable w) :
  (∀ n nd, source_of w n = Some nd → n_started nd = true) ∧
  (∃ w', stopAudio w = (Returned tt, w')) ∧
  (∃ w', handleStopClick w = (Returned tt, w')) ∧
  (∀ url c,
     (audioContext (player w) = None ∧ playAudio url c w = (Rejected NotInitialized, w)) ∨
     (∃ w', playAudio url c w = (Pending (length (tasks w)), w'))).
Proof.
  pose proof (reachable_wf _ Hw) as Hwf.
  destruct (stopAudio_returns _ Hwf) as (w1 & Hs & _).
  split; [|split; [|split]].
  - pose proof (wf_started _ Hwf) as Hst. rewrite Forall_lookup in Hst. exact Hst.
  - by exists w1.
  - unfold handleStopClick, mbind, M_bind, read, update. cbn.
    destruct (audioSourceRef (home w)); [|by eexists].
    rewrite Hs. by eexists.
  - intros url c. destruct (audioContext (player w)) as [ctx|] eqn:Hc.
    + right. destruct (playAudio_suspends w url c Hwf) as (w' & H & _); [by rewrite Hc|].
      by exists w'.
    + left. split; [done|]. open_world w. cbn in Hc. by subst.
Qed.

Lemma stop_calls_never_throw_witness :
  reachable (after (tr_sounding ++ [Ended 0])) ∧
  audioSource (player (after (tr_sounding ++ [Ended 0]))) = Some 0 ∧
  playing (after (tr_sounding ++ [Ended 0])) 0 = false ∧
  ∃ w', stopAudio (after (tr_sounding ++ [Ended 0])) = (Returned tt, w').
Proof.
  assert (Hr : reachable (after (tr_sounding ++ [Ended 0]))) by runs.
  split; [exact Hr|]. split; [reflexivity|]. split; [reflexivity|].
  destruct (stop_calls_never_throw _ Hr) as (_ & H & _). exact H.
Defined.

(** ** The stop button *)

(** X4: whenever the stop button is enabled, a click on it works: the
    handler returns normally, the source the player holds is silenced and
    forgotten, [isPlaying] and the ref are cleared, and the page is back to
    an enabled play button and a disabled stop button. *)
Theorem stop_click_stops (w : World) (Hw : reachable w)
  (Hp : isPlaying (home w) = true) :
  onClick StopAudioButton w = Some ClickStop ∧
  ∃ w', handleStopClick w = (Returned tt, w') ∧
    step ClickStop w = Some w' ∧
    isPlaying (home w') = false ∧
    audioSourceRef (home w') = None ∧
    audioSource (player w') = None ∧
    (∀ n, audioSource (player w) = Some n → playing w' n = false) ∧
    onClick StopAudioButton w' = None ∧
    onClick PlayAudioButton w' = Some (ClickPlay (SiteUrl "/sample.mp3")).
Proof.
  pose proof (reachable_wf _ Hw) as Hwf.
  pose proof (reachable_flags_backed _ Hw) as [Hfp _].
  destruct (Hfp Hp) as [r Hr].
  destruct (stopAudio_returns _ Hwf) as (w1 & Hs & Hnone & _ & _ & Hh & _ & _ & _ & Hsil).
  split; [unfold onClick; by rewrite Hp|].
  exists (with_home (set_audioSourceRef None) (with_home (set_isPlaying false) w1)).
  assert (handleStopClick w = (Returned tt,
            with_home (set_audioSourceRef None) (with_home (set_isPlaying false) w1))) as He.
  { unfold handleStopClick, mbind, M_bind, read, update. cbn. by rewrite Hr, Hs. }
  split; [done|]. split; [cbn; by rewrite He|].
  repeat split; try done.
Qed.

Lemma stop_click_stops_witness :
  reachable (after tr_sounding) ∧
  ∃ w', step ClickStop (after tr_sounding) = Some w' ∧
    isPlaying (home w') = false ∧ playing w' 0 = false.
Proof.
  assert (Hr : reachable (after tr_sounding)) by runs.
  split; [exact Hr|].
  destruct (stop_click_stops _ Hr eq_refl) as (_ & w' & _ & H1 & H2 & _ & _ & H3 & _).
  exists w'. split; [exact H1|]. split; [exact H2|]. apply H3. reflexivity.
Defined.


(** ** A click on a play button, from click to natural end *)

Lemma click_lands w t url buf pcm ctx :
  tasks w !! t = Some (PlayTask (AwaitFetch url) PlayClick) →
  audioContext (player w) = Some ctx →
  ∃ w2, run [Fetched t ok; BodyRead t (Returned buf); Decoded t (Returned pcm)] w = Some w2 ∧
    sources (platform w2) = sources (platform w) ++
      [{| n_buffer := Some pcm;
          n_connected := [match destination (player w) with
                          | Some d => StreamDestination d
                          | None => ContextDestination ctx
                          end];
          n_started := true; n_stopped := false; n_ended := false;
          n_onended := true |}] ∧
    audioSource (player w2) = Some (length (sources (platform w))) ∧
    isPlaying (home w2) = true ∧
    audioSourceRef (home w2) = Some (length (sources (platform w))).
Proof.
  intros Ht Hc. cbn [run]. rewrite (step_fetched _ _ _ _ Ht).
  pose proof (advance_lookup w t _ (PlayTask AwaitBody PlayClick) Ht) as H1.
  rewrite (step_body _ _ _ buf H1) by (cbn; eauto).
  pose proof (advance_lookup _ t _ (PlayTask (AwaitDecode buf) PlayClick) H1) as H2.
  destruct (playAudio_decoded_starts _ t buf PlayClick pcm ctx H2 Hc)
    as (w' & Hd & Hsrc & Hs & _ & _ & _ & Hh & _).
  unfold step, play_caller. rewrite H2. cbn. rewrite Hd. cbn.
  eexists. split; [reflexivity|].
  unfold alter_source, with_home, with_platform. cbn.
  rewrite Hs. cbn. rewrite alter_snoc. done.
Qed.

(** X5: a click on a play button, from the click to the natural end.  On
    a player that has its context and with nothing else in between: the
    click itself leaves [isPlaying] as it was; when fetch, body and decode
    succeed the new source sounds, is the one held by the player and named
    by the ref, and [isPlaying] is true; when its buffer runs out the
    completion callback flips [isPlaying] to false and clears the ref
    without any stop, the event cannot come a second time, and the player
    itself still names the ended source.  And in whatever reachable world
    they run, with other events in between: of the steps of the click only
    the landing touches the page state; the click, the completed fetch and
    the completed body read leave it as it is (an [ended] event of the clip
    the click stopped may clear [isPlaying] meanwhile), and a successful
    decode sets [isPlaying] and the ref and starts the new source. *)
Theorem play_click_runs_to_end (w : World) (Hw : reachable w) :
  (∀ url buf pcm, is_Some (audioContext (player w)) →
   ∃ w1 w2 w3,
    step (ClickPlay url) w = Some w1 ∧
    home w1 = home w ∧
    run [Fetched (length (tasks w)) ok; BodyRead (length (tasks w)) (Returned buf);
         Decoded (length (tasks w)) (Returned pcm)] w1 = Some w2 ∧
    isPlaying (home w2) = true ∧
    audioSourceRef (home w2) = Some (length (sources (platform w))) ∧
    audioSource (player w2) = Some (length (sources (platform w))) ∧
    playing w2 (length (sources (platform w))) = true ∧
    (n_buffer <$> source_of w2 (length (sources (platform w)))) = Some (Some pcm) ∧
    step (Ended (length (sources (platform w)))) w2 = Some w3 ∧
    isPlaying (home w3) = false ∧
    audioSourceRef (home w3) = None ∧
    playing w3 (length (sources (platform w))) = false ∧
    audioSource (player w3) = Some (length (sources (platform w))) ∧
    step (Ended (length (sources (platform w)))) w3 = None ∧
    step (EndedAfterStop (length (sources (platform w)))) w3 = None) ∧
  (∀ t url, tasks w !! t = Some (PlayTask (AwaitFetch url) PlayClick) →
     ∃ w1, step (Fetched t ok) w = Some w1 ∧ home w1 = home w ∧
       tasks w1 !! t = Some (PlayTask AwaitBody PlayClick)) ∧
  (∀ t buf, tasks w !! t = Some (PlayTask AwaitBody PlayClick) →
     ∃ w1, step (BodyRead t (Returned buf)) w = Some w1 ∧ home w1 = home w ∧
       tasks w1 !! t = Some (PlayTask (AwaitDecode buf) PlayClick)) ∧
  (∀ t buf pcm, tasks w !! t = Some (PlayTask (AwaitDecode buf) PlayClick) →
     ∃ w2, step (Decoded t (Returned pcm)) w = Some w2 ∧
       isPlaying (home w2) = true ∧
       audioSourceRef (home w2) = Some (length (sources (platform w))) ∧
       audioSource (player w2) = Some (length (sources (platform w))) ∧
       playing w2 (length (sources (platform w))) = true ∧
       (n_buffer <$> source_of w2 (length (sources (platform w)))) = Some (Some pcm) ∧
       (n_onended <$> source_of w2 (length (sources (platform w)))) = Some true).
Proof.
  pose proof (reachable_wf _ Hw) as Hwf.
  pose proof (wf_play _ Hwf) as Hplay. rewrite Forall_lookup in Hplay.
  split; [|split; [|split]].
  - intros url buf pcm Hc.
      destruct (playAudio_suspends w url PlayClick Hwf Hc)
        as (w1 & Hp & Hts & Hh & _ & Hctx & _ & Hlen & _).
      destruct Hc as [ctx Hc].
      assert (tasks w1 !! length (tasks w) = Some (PlayTask (AwaitFetch url) PlayClick)) as Ht1.
      { rewrite Hts. apply lookup_snoc. }
      assert (audioContext (player w1) = Some ctx) as Hc1 by (by rewrite Hctx).
      destruct (click_lands w1 _ url buf pcm ctx Ht1 Hc1) as (w2 & Hr & Hs2 & Ha2 & Hp2 & Hr2).
      rewrite Hlen in Ha2, Hr2.
      assert ((sources (platform w2)) !! length (sources (platform w)) =
              Some {| n_buffer := Some pcm;
                      n_connected := [match destination (player w1) with
                                      | Some d => StreamDestination d
                                      | None => ContextDestination ctx
                                      end];
                      n_started := true; n_stopped := false; n_ended := false;
                      n_onended := true |}) as Hl2.
      { rewrite Hs2, <- Hlen. apply lookup_snoc. }
      exists w1, w2. eexists.
      split. { cbn. unfold handlePlayClick. by rewrite Hp. }
      split. { by rewrite Hh. }
      split; [done|]. split; [done|]. split; [done|]. split; [done|].
      split. { unfold playing, source_of. by rewrite Hl2. }
      split. { unfold source_of. by rewrite Hl2. }
      split.
      { unfold step, playing, fire_ended, source_of. rewrite Hl2. cbn. reflexivity. }
      unfold onended_handler, alter_source, with_home, with_platform, playing, source_of,
        step, playing, source_of. cbn.
      rewrite list_lookup_alter_eq, Hl2. cbn.
      repeat split; done.
  - intros t url Ht. rewrite (step_fetched _ _ _ _ Ht). eexists. split; [done|].
    split; [done|]. by eapply advance_lookup.
  - intros t buf Ht. rewrite (step_body _ _ _ buf Ht) by (by eapply (Hplay _ _ Ht)).
    eexists. split; [done|]. split; [done|]. by eapply advance_lookup.
  - intros t buf pcm Ht. destruct (Hplay _ _ Ht) as [ctx Hc].
    destruct (playAudio_decoded_starts _ t buf PlayClick pcm ctx Ht Hc)
      as (w' & Hd & Hsrc & Hs & _ & _ & _ & Hh & _).
    unfold step, play_caller. rewrite Ht. cbn. rewrite Hd. cbn.
    eexists. split; [reflexivity|].
    unfold alter_source, with_home, with_platform, playing, source_of. cbn.
    rewrite Hs. cbn. rewrite alter_snoc, lookup_snoc. done.
Qed.

Lemma play_click_runs_to_end_witness :
  reachable (after [InitEffect true]) ∧
  ∃ w1 w2 w3, step (ClickPlay sample) (after [InitEffect true]) = Some w1 ∧
    run [Fetched 0 ok; BodyRead 0 (Returned []); Decoded 0 (Returned [1%Z])] w1 = Some w2 ∧
    isPlaying (home w2) = true ∧
    step (Ended 0) w2 = Some w3 ∧ isPlaying (home w3) = false.
Proof.
  assert (Hr : reachable (after [InitEffect true])) by runs.
  split; [exact Hr|].
  destruct (proj1 (play_click_runs_to_end (after [InitEffect true]) Hr) sample [] [1%Z]
              (ex_intro _ 0 eq_refl))
    as (w1 & w2 & w3 & H1 & _ & H2 & H3 & _ & _ & _ & _ & H4 & H5 & _).
  exists w1, w2, w3. split; [exact H1|]. split; [exact H2|]. split; [exact H3|].
  split; [exact H4|exact H5].
Defined.

(** X6: a click on a play button that fails.  Without a context the click
    only sets [isPlaying] to false.  With one, the click stops the source
    the player holds, which is silent from then on whatever follows.  A
    failure of the fetch, of the body read or of the decode, with whatever
    error and in whatever reachable world it arrives, sets [isPlaying] to
    false and settles the call, and changes nothing else: no source is
    made, and the ref, the player and the platform are as they were just
    before the failure. *)
Theorem play_click_failure (w : World) (Hw : reachable w) :
  (∀ url, audioContext (player w) = None →
     step (ClickPlay url) w = Some (with_home (set_isPlaying false) w)) ∧
  (∀ url, is_Some (audioContext (player w)) →
     ∃ w1, step (ClickPlay url) w = Some w1 ∧ home w1 = home w ∧
       ∀ n, audioSource (player w) = Some n →
         ∀ tr w2, run tr w1 = Some w2 → playing w2 n = false) ∧
  (∀ t stage e, tasks w !! t = Some (PlayTask stage PlayClick) →
     ∃ w2, step (match stage with
                 | AwaitFetch _ => Fetched t (Threw e)
                 | AwaitBody => BodyRead t (Threw e)
                 | AwaitDecode _ => Decoded t (Threw e)
                 end) w = Some w2 ∧
       home w2 = set_isPlaying false (home w) ∧
       platform w2 = platform w ∧ player w2 = player w ∧
       tasks w2 = <[t := Settled]> (tasks w)).
Proof.
  pose proof (reachable_wf _ Hw) as Hwf. split; [|split].
  - intros url Hc. open_world w. cbn in Hc. by subst.
  - intros url Hc.
    destruct (playAudio_suspends w url PlayClick Hwf Hc)
      as (w1 & Hp & Hts & Hh & Ha & Hctx & _ & Hlen & _ & Hsil).
    exists w1. split. { cbn. unfold handlePlayClick. by rewrite Hp. }
    split; [done|]. intros n Hn tr w2 Hr.
    eapply run_silent; [done| |by apply Hsil].
    rewrite Hlen. by apply (wf_source _ Hwf).
  - intros t stage e Ht. open_world w. change (ts !! t = Some (PlayTask stage PlayClick)) in Ht.
    destruct stage; unfold_code; rewrite Ht; eexists; (split; [reflexivity|done]).
Qed.

Lemma play_click_failure_witness :
  reachable (after tr_sounding) ∧
  ∃ w1 w2, step (ClickPlay (SiteUrl "/missing.mp3")) (after tr_sounding) = Some w1 ∧
    run [EndedAfterStop 0; Fetched 1 (Threw FetchError)] w1 = Some w2 ∧
    playing w2 0 = false.
Proof.
  assert (Hr : reachable (after tr_sounding)) by runs.
  split; [exact Hr|].
  destruct (play_click_failure (after tr_sounding) Hr) as (_ & H & _).
  destruct (H (SiteUrl "/missing.mp3") (ex_intro _ 0 eq_refl)) as (w1 & H1 & H0 & H2).
  destruct (run [EndedAfterStop 0; Fetched 1 (Threw FetchError)] w1) as [w2|] eqn:H3.
  - exists w1, w2. split; [exact H1|]. split; [exact H3|]. exact (H2 0 eq_refl _ w2 H3).
  - exfalso. vm_compute in H1. injection H1 as <-. vm_compute in H3. discriminate.
Defined.

(** ** The list of recordings *)

Lemma step_recordings_minted l w w' :
  step l w = Some w' →
  recordings (home w) = map ObjectUrl (seq 0 (length (object_urls (platform w)))) →
  recordings (home w') = map ObjectUrl (seq 0 (length (object_urls (platform w')))).
Proof.
  intros Hs H. open_world w. destruct l; unfold_code; crunch.
  all: try match goal with
       | H : Build_Platform _ _ _ _ _ _ _ = _ |- _ => injection H as -> -> -> -> -> -> ->
       end.
  all: simplify_eq; cbn in *; try done; try congruence.
  all: rewrite length_app, seq_app, map_app; done.
Qed.

Lemma reachable_recordings_minted w :
  reachable w →
  recordings (home w) = map ObjectUrl (seq 0 (length (object_urls (platform w)))).
Proof.
  intros [tr Hr]. revert Hr.
  assert (recordings (home world0)
          = map ObjectUrl (seq 0 (length (object_urls (platform world0))))) as H0 by done.
  revert H0. generalize world0.
  induction tr as [|l tr IH]; cbn; intros w0 H0 Hr.
  - by simplify_eq.
  - destruct (step l w0) as [w1|] eqn:Hs; [|done].
    eapply IH; [|exact Hr]. by eapply step_recordings_minted.
Qed.

(** X7: the list of recordings is exactly the object URLs minted so far, in
    the order they were minted, each once.  So the button "Play Recording
    i+1" plays the i-th clip ever finalized, which is stored with type
    "audio/wav", and there is no button beyond the last clip. *)
Theorem recordings_are_the_minted_urls (w : World) (Hw : reachable w) :
  recordings (home w) = ObjectUrl <$> seq 0 (length (object_urls (platform w))) ∧
  NoDup (recordings (home w)) ∧
  (∀ i, i < length (object_urls (platform w)) →
     onClick (PlayRecordingButton i) w = Some (ClickPlay (ObjectUrl i)) ∧
     ∃ b, object_urls (platform w) !! i = Some b ∧ b_type b = "audio/wav") ∧
  (∀ i, length (object_urls (platform w)) ≤ i → onClick (PlayRecordingButton i) w = None).
Proof.
  pose proof (reachable_recordings_minted _ Hw) as Hm.
  pose proof (wf_blobs _ (reachable_wf _ Hw)) as Hb. rewrite Forall_lookup in Hb.
  split; [done|]. split; [|split].
  - rewrite Hm. apply NoDup_fmap_2; [|apply NoDup_seq]. by intros ?? [= ->].
  - intros i Hi. split.
    + unfold onClick. rewrite Hm, list_lookup_fmap, lookup_seq_lt by done. done.
    + destruct (lookup_lt_is_Some_2 _ _ Hi) as [b Hl]. exists b. split; [done|].
      by apply (Hb i).
  - intros i Hi. unfold onClick. rewrite Hm, list_lookup_fmap, lookup_seq_ge by done. done.
Qed.

Lemma recordings_are_the_minted_urls_witness :
  reachable (after tr_recorded) ∧
  recordings (home (after tr_recorded)) = [ObjectUrl 0] ∧
  onClick (PlayRecordingButton 0) (after tr_recorded) = Some (ClickPlay (ObjectUrl 0)).
Proof.
  assert (Hr : reachable (after tr_recorded)) by runs.
  split; [exact Hr|]. split; [reflexivity|].
  destruct (recordings_are_the_minted_urls _ Hr) as (_ & _ & H & _).
  apply (H 0). vm_compute. lia.
Defined.

(** ** One recording, from the granted microphone to the clip *)

Lemma run_fragments r fs : ∀ w rc,
  recorder_of w r = Some rc → r_state rc = Recording → r_ondataavailable rc = true →
  run (map (DataAvailable r) fs) w
    = Some (with_home (λ h, set_audioChunksRef (audioChunksRef h ++ fs) h) w).
Proof.
  induction fs as [|f fs IH]; intros w rc Hl Hs Hd.
  - cbn. f_equal. destruct w as [p pl [ip so rcs ir asr mrr acr] ts].
    unfold with_home, set_audioChunksRef. cbn. by rewrite app_nil_r.
  - cbn [map run]. unfold step, fire_dataavailable. rewrite Hl, Hs, Hd.
    rewrite (IH _ rc); [|done|done|done].
    f_equal. destruct w as [p pl [ip so rcs ir asr mrr acr] ts].
    unfold ondataavailable_handler, with_home, set_audioChunksRef. cbn.
    by rewrite <- app_assoc.
Qed.

(** X8: one whole recording.  From a pending request for the microphone:
    access is granted, any fragments arrive, the stop handler runs and then
    the stop task with the last fragment.  Exactly one URL is added to the
    list, for one blob of type "audio/wav" whose bytes are the bytes of the
    fragments of this recording, in the order they arrived.  Whatever the
    buffer held before the start is not in the clip. *)
Theorem recording_round_trip (w : World) (t : nat) (fs : list Blob) (last : Blob)
  (Ht : tasks w !! t = Some MicTask) :
  ∃ w', run ([MicAnswered t ok]
             ++ map (DataAvailable (length (recorders (platform w)))) fs
             ++ [StopRecording; RecorderStopped (length (recorders (platform w))) last]) w
          = Some w' ∧
    recordings (home w') = recordings (home w) ++
      [ObjectUrl (length (object_urls (platform w)))] ∧
    object_urls (platform w') = object_urls (platform w) ++
      [{| b_data := concat (map b_data (fs ++ [last])); b_type := "audio/wav" |}] ∧
    isRecording (home w') = false ∧
    is_recording w' (length (recorders (platform w))) = false ∧
    streams (platform w') = streams (platform w) ++ [{| st_live := true |}].
Proof.
  open_world w. cbn [tasks platform home recorders streams object_urls recordings] in *.
  pose (rc := {| r_stream := length strs; r_state := Recording;
                 r_ondataavailable := true; r_onstop := true; r_stopping := false |}).
  pose (w1 := {| player := {| audioContext := ac; audioSource := asrc; destination := dst |};
                 platform := {| contexts := ctxs; destinations := dsts; audios := auds;
                                sources := srcs; recorders := recs ++ [rc];
                                streams := strs ++ [{| st_live := true |}];
                                object_urls := urls |};
                 home := {| isPlaying := ip; selectedOutput := so; recordings := rcs;
                            isRecording := true; audioSourceRef := asr;
                            mediaRecorderRef := Some (length recs);
                            audioChunksRef := [] |};
                 tasks := <[t:=Settled]> ts |}).
  assert (step (MicAnswered t ok)
            {| player := {| audioContext := ac; audioSource := asrc; destination := dst |};
               platform := {| contexts := ctxs; destinations := dsts; audios := auds;
                              sources := srcs; recorders := recs; streams := strs;
                              object_urls := urls |};
               home := {| isPlaying := ip; selectedOutput := so; recordings := rcs;
                          isRecording := ir; audioSourceRef := asr;
                          mediaRecorderRef := mrr; audioChunksRef := acr |};
               tasks := ts |} = Some w1) as Hs1.
  { subst w1 rc. unfold_code. rewrite Ht. crunch. reflexivity. }
  rewrite run_app. cbn [run]. rewrite Hs1. cbn [mbind option_bind].
  rewrite run_app.
  rewrite (run_fragments _ fs w1 rc); [|apply lookup_snoc|done|done].
  cbn [mbind option_bind]. subst w1 rc. clear Hs1.
  cbn [run]. unfold_code.
  repeat (progress (rewrite ?alter_snoc, ?lookup_snoc; cbn)).
  eexists. split; [reflexivity|]. cbn. rewrite ?alter_snoc, ?lookup_snoc. done.
Qed.

Lemma recording_round_trip_witness :
  tasks (after [StartRecording]) !! 0 = Some MicTask ∧
  ∃ w', run ([MicAnswered 0 ok] ++ map (DataAvailable 0) [webm [Byte.x01]; webm [Byte.x02]]
             ++ [StopRecording; RecorderStopped 0 (webm [Byte.x03])]) (after [StartRecording])
          = Some w' ∧
    recordings (home w') = [ObjectUrl 0] ∧
    object_urls (platform w') =
      [{| b_data := [Byte.x01; Byte.x02; Byte.x03]; b_type := "audio/wav" |}].
Proof.
  split; [reflexivity|].
  destruct (recording_round_trip (after [StartRecording]) 0
              [webm [Byte.x01]; webm [Byte.x02]] (webm [Byte.x03]) eq_refl)
    as (w' & H1 & H2 & H3 & _).
  exists w'. split; [exact H1|]. split; [exact H2|exact H3].
Defined.

(** ** Each part of the code keeps to its own state *)

Lemma step_sessions l w w' :
  step l w = Some w' →
  match session_of l with
  | Routing => playback_state w' = playback_state w ∧ capture_state w' = capture_state w
  | Playback => routing_state w' = routing_state w ∧ capture_state w' = capture_state w
  | Capture => routing_state w' = routing_state w ∧ playback_state w' = playback_state w
  end.
Proof.
  intros Hs. open_world w. unfold routing_state, playback_state, capture_state.
  destruct l; unfold_code; crunch.
  all: try match goal with
       | H : Build_Platform _ _ _ _ _ _ _ = _ |- _ => injection H as -> -> -> -> -> -> ->
       end.
  all: simplify_eq; cbn; try done; try (split; congruence).
Qed.

(** X9: the state of a session is changed by the steps of that session
    only.  Over any run without a routing step ([init], from wherever it is
    called, and the completion of [setSinkId]) the route is what it was;
    over any run without a playback step the sources, the player's current
    source and the playing flag are what they were, so selecting a device
    or recording neither stops nor restarts nor reconnects a clip; and over
    any run without a recording step the recorders, the streams, the clips
    and the recording flag are what they were. *)
Theorem sessions_keep_apart (tr : list Label) (w w' : World) (Hr : run tr w = Some w') :
  (Forall (λ l, session_of l ≠ Routing) tr → routing_state w' = routing_state w) ∧
  (Forall (λ l, session_of l ≠ Playback) tr → playback_state w' = playback_state w) ∧
  (Forall (λ l, session_of l ≠ Capture) tr → capture_state w' = capture_state w).
Proof.
  revert w Hr. induction tr as [|l tr IH]; cbn [run]; intros w Hr.
  - by simplify_eq.
  - destruct (step l w) as [w1|] eqn:Hs; [|done].
    destruct (IH _ Hr) as (IH1 & IH2 & IH3).
    pose proof (step_sessions _ _ _ Hs) as H.
    repeat split; intros [Hl Htr]%Forall_cons.
    + rewrite IH1 by done. destruct (session_of l); [done | apply H | apply H].
    + rewrite IH2 by done. destruct (session_of l); [apply H | done | apply H].
    + rewrite IH3 by done. destruct (session_of l); [apply H | apply H | done].
Qed.

Lemma sessions_keep_apart_witness :
  ∃ w', run [SelectOutput "D" true; SinkBound 1 ok; StartRecording] (after tr_sounding) = Some w' ∧
        playback_state w' = playback_state (after tr_sounding).
Proof.
  destruct (run [SelectOutput "D" true; SinkBound 1 ok; StartRecording] (after tr_sounding))
    as [w'|] eqn:H; [|vm_compute in H; discriminate].
  exists w'. split; [reflexivity|].
  apply (proj1 (proj2 (sessions_keep_apart _ _ _ H))).
  repeat constructor; discriminate.
Defined.

(** ** Where a clip comes out *)

Lemma route_ok_world0 : route_ok world0.
Proof. split; cbn; [constructor | done]. Qed.

Lemma step_route_ok l w w' : route_ok w → step l w = Some w' → route_ok w'.
Proof.
  intros [Ha Hd] Hs.
  destruct (session_of l) eqn:Hl.
  - open_world w. destruct l; try done; unfold_code; crunch.
    all: simplify_eq; split; cbn in *; rewrite ?length_app; cbn.
    all: try done.
    all: try (intros ? [= <-]; lia).
    all: try (intros d Hd'; specialize (Hd d Hd'); lia).
    all: try forall_tac; cbn in *; try done.
    all: try (intros ? [= <-]; lia).
    all: try (intros d' Hd'; match goal with H : ∀ d, _ = Some d → _ |- _ =>
                specialize (H d' Hd') end; lia).
  - pose proof (step_sessions _ _ _ Hs) as H. rewrite Hl in H.
    destruct H as [H _]. unfold routing_state in H.
    injection H as Hc Hdst Hcs Hds Hau _.
    split; [by rewrite Hds, Hau | by rewrite Hds, Hdst].
  - pose proof (step_sessions _ _ _ Hs) as H. rewrite Hl in H.
    destruct H as [H _]. unfold routing_state in H.
    injection H as Hc Hdst Hcs Hds Hau _.
    split; [by rewrite Hds, Hau | by rewrite Hds, Hdst].
Qed.

Lemma reachable_route_ok w : reachable w → route_ok w.
Proof.
  intros [tr Hr]. revert Hr. generalize route_ok_world0. generalize world0.
  induction tr as [|l tr IH]; cbn; intros w0 H0 Hr.
  - by simplify_eq.
  - destruct (step l w0) as [w1|] eqn:Hs; [|done].
    eapply IH; [|exact Hr]. by eapply step_route_ok.
Qed.

Lemma routing_state_sinks w w' o :
  routing_state w' = routing_state w → sinks_of w' o = sinks_of w o.
Proof.
  unfold routing_state. intros [= _ _ _ _ Ha _]. unfold sinks_of. by rewrite Ha.
Qed.

(** A play, from the call to the landing, with nothing in between. *)
Lemma play_routes w url c buf pcm ctx :
  reachable w → audioContext (player w) = Some ctx →
  ∃ w', run [if c is PlayClick then ClickPlay url else CallPlayAudio url;
             Fetched (length (tasks w)) ok;
             BodyRead (length (tasks w)) (Returned buf);
             Decoded (length (tasks w)) (Returned pcm)] w = Some w' ∧
    playing w' (length (sources (platform w))) = true ∧
    routed_to w' (length (sources (platform w))) =
      sinks_of w (match destination (player w) with
                  | Some d => StreamDestination d
                  | None => ContextDestination ctx
                  end) ∧
    routing_state w' = routing_state w.
Proof.
  intros Hw Hc. pose proof (reachable_wf _ Hw) as Hwf.
  destruct (playAudio_suspends w url c Hwf) as (w1 & Hp & Hts & _ & _ & Hctx & Hdst & Hlen & _);
    [by rewrite Hc|].
  assert (step (if c is PlayClick then ClickPlay url else CallPlayAudio url) w = Some w1) as Hs1.
  { destruct c; cbn; [by rewrite Hp|]. unfold handlePlayClick. by rewrite Hp. }
  assert (tasks w1 !! length (tasks w) = Some (PlayTask (AwaitFetch url) c)) as Ht1.
  { rewrite Hts. apply lookup_snoc. }
  pose proof (step_fetched _ _ _ _ Ht1) as Hs2.
  pose proof (advance_lookup _ _ _ (PlayTask AwaitBody c) Ht1) as Hb.
  assert (is_Some (audioContext (player w1))) as Hc1 by (rewrite Hctx, Hc; eauto).
  pose proof (step_body _ _ _ buf Hb Hc1) as Hs3.
  pose proof (advance_lookup _ _ _ (PlayTask (AwaitDecode buf) c) Hb) as Hd.
  destruct (step_decoded _ _ buf c pcm ctx Hd) as (w' & Hs4 & _ & Hpl & _ & _ & _ & Hcon).
  { cbn. by rewrite Hctx. }
  cbn in Hpl, Hcon. rewrite Hlen in Hpl, Hcon. rewrite Hdst in Hcon.
  assert (routing_state w' = routing_state w) as Hrt.
  { assert (routing_state w1 = routing_state w) as H1.
    { destruct c; exact (proj1 (step_sessions _ _ _ Hs1)). }
    pose proof (proj1 (step_sessions _ _ _ Hs2) : routing_state _ = _) as H2.
    pose proof (proj1 (step_sessions _ _ _ Hs3) : routing_state _ = _) as H3.
    pose proof (proj1 (step_sessions _ _ _ Hs4) : routing_state _ = _) as H4.
    congruence. }
  exists w'. split.
  { cbn [run]. by rewrite Hs1, Hs2, Hs3, Hs4. }
  split; [done|]. split; [|done].
  unfold routed_to. destruct (source_of w' (length (sources (platform w)))) as [nd|]; [|done].
  cbn in Hcon. injection Hcon as ->. cbn. rewrite app_nil_r.
  by apply routing_state_sinks.
Qed.

Lemma reachable_run tr w w' : reachable w → run tr w = Some w' → reachable w'.
Proof.
  intros [tr0 H0] Hr. exists (tr0 ++ tr). by rewrite run_app, H0.
Qed.

(** [init] with a device id and the answer of [setSinkId], nothing in
    between: the player's route is a new destination node, fed into a new
    audio element that plays on the device if the sink was bound and stays
    paused on the default sink if it was not. *)
Lemma init_then_answer w dev (answer : Result unit) :
  truthy (Some dev) = true →
  ∃ w2, run [CallInit (Some dev) true; SinkBound (length (tasks w)) answer] w = Some w2 ∧
    destination (player w2) = Some (length (destinations (platform w))) ∧
    audios (platform w2) = audios (platform w) ++
      [{| a_srcObject := Some (length (destinations (platform w)));
          a_sinkId := if answer is Returned _ then dev else "";
          a_playing := if answer is Returned _ then true else false |}] ∧
    is_Some (audioContext (player w2)) ∧
    length (tasks w2) = S (length (tasks w)) ∧
    sources (platform w2) = sources (platform w) ∧
    (∀ t k, tasks w !! t = Some k → tasks w2 !! t = Some k).
Proof.
  intros Ht. open_world w. cbn [run]. unfold_code. rewrite Ht.
  destruct ac, answer; crunch.
  all: eexists; split; [reflexivity|]; cbn;
       rewrite ?length_insert, ?length_app; cbn;
       repeat split; eauto; try lia.
  all: intros t k Hk; pose proof (lookup_lt_Some _ _ _ Hk);
       rewrite list_lookup_insert_ne by lia; by apply lookup_app_l_Some.
Qed.

Lemma sinks_of_fresh (w : World) (n : nat) (l : list AudioElement) :
  Forall (λ a, ∀ d, a_srcObject a = Some d → d < n) l →
  omap (λ e, match a_srcObject e with
             | Some d' => if Nat.eqb d' n && a_playing e then Some (a_sinkId e) else None
             | None => None
             end) l = [].
Proof.
  induction 1 as [|a l Ha _ IH]; [done|]. cbn.
  destruct (a_srcObject a) as [d|] eqn:Hd; [|exact IH].
  specialize (Ha d eq_refl).
  destruct (Nat.eqb_spec d n); [lia|]. exact IH.
Qed.

(** X10: where a clip comes out.  A play that runs from the call to its
    landing is connected to the destination node the player holds, or to
    the context's own destination if it holds none, and so comes out of the
    default device as long as no device was ever selected.  Right after
    [init] with a device id whose sink was bound, the next play sounds on
    that device and on no other, whatever the route was before. *)
Theorem bound_device_gets_next_play (w : World) (dev : string) (url : Url)
  (buf : Bytes) (pcm : Pcm) (Hw : reachable w) (Hdev : dev ≠ "") :
  (∀ ctx, audioContext (player w) = Some ctx → destination (player w) = None →
     ∃ w', run [CallPlayAudio url; Fetched (length (tasks w)) ok;
                BodyRead (length (tasks w)) (Returned buf);
                Decoded (length (tasks w)) (Returned pcm)] w = Some w' ∧
       playing w' (length (sources (platform w))) = true ∧
       routed_to w' (length (sources (platform w))) = [""]) ∧
  (∃ w', run [CallInit (Some dev) true; SinkBound (length (tasks w)) ok;
              CallPlayAudio url; Fetched (S (length (tasks w))) ok;
              BodyRead (S (length (tasks w))) (Returned buf);
              Decoded (S (length (tasks w))) (Returned pcm)] w = Some w' ∧
     playing w' (length (sources (platform w))) = true ∧
     routed_to w' (length (sources (platform w))) = [dev]).
Proof.
  split.
  - intros ctx Hc Hd.
    destruct (play_routes w url Direct buf pcm ctx Hw Hc) as (w' & Hr & Hp & Hrt & _).
    exists w'. rewrite Hd in Hrt. done.
  - assert (truthy (Some dev) = true) as Ht.
    { cbn. by apply negb_true_iff, String.eqb_neq. }
    destruct (init_then_answer w dev ok Ht) as (w2 & Hr2 & Hd2 & Ha2 & [ctx Hc2] & Hl2 & Hs2 & _).
    pose proof (reachable_run _ _ _ Hw Hr2) as Hw2.
    destruct (play_routes w2 url Direct buf pcm ctx Hw2 Hc2) as (w' & Hr & Hp & Hrt & _).
    rewrite Hl2, Hs2, Hd2 in *.
    exists w'. split.
    { change (run ([CallInit (Some dev) true; SinkBound (length (tasks w)) ok] ++
                   [CallPlayAudio url; Fetched (S (length (tasks w))) ok;
                    BodyRead (S (length (tasks w))) (Returned buf);
                    Decoded (S (length (tasks w))) (Returned pcm)]) w = Some w').
      rewrite run_app, Hr2. exact Hr. }
    split; [done|]. rewrite Hrt. unfold sinks_of. rewrite Ha2, omap_app.
    rewrite (sinks_of_fresh w); [|exact (ro_audios _ (reachable_route_ok _ Hw))].
    cbn. by rewrite Nat.eqb_refl.
Qed.

Lemma bound_device_gets_next_play_witness :
  reachable (after tr_sounding) ∧
  ∃ w', run [CallInit (Some "D") true; SinkBound 1 ok; CallPlayAudio sample;
             Fetched 2 ok; BodyRead 2 (Returned []); Decoded 2 (Returned [2%Z])]
          (after tr_sounding) = Some w' ∧
    playing w' 1 = true ∧ routed_to w' 1 = ["D"].
Proof.
  assert (Hr : reachable (after tr_sounding)) by runs.
  split; [exact Hr|].
  assert (Hd : "D" ≠ "") by discriminate.
  exact (proj2 (bound_device_gets_next_play (after tr_sounding) "D" sample [] [2%Z] Hr Hd)).
Defined.

(** X11: when [setSinkId] rejects, [init] has already made the new
    destination node the player's route.  The next play is started and
    connected to that node, whose audio element never plays: the clip comes
    out of no device, whatever the route was before. *)
Theorem unbound_device_silences_next_play (w : World) (dev : string) (url : Url)
  (buf : Bytes) (pcm : Pcm) (e : Error) (Hw : reachable w) (Hdev : dev ≠ "") :
  ∃ w', run [CallInit (Some dev) true; SinkBound (length (tasks w)) (Threw e);
             CallPlayAudio url; Fetched (S (length (tasks w))) ok;
             BodyRead (S (length (tasks w))) (Returned buf);
             Decoded (S (length (tasks w))) (Returned pcm)] w = Some w' ∧
    playing w' (length (sources (platform w))) = true ∧
    routed_to w' (length (sources (platform w))) = [].
Proof.
  assert (truthy (Some dev) = true) as Ht.
  { cbn. by apply negb_true_iff, String.eqb_neq. }
  destruct (init_then_answer w dev (Threw e) Ht)
    as (w2 & Hr2 & Hd2 & Ha2 & [ctx Hc2] & Hl2 & Hs2 & _).
  pose proof (reachable_run _ _ _ Hw Hr2) as Hw2.
  destruct (play_routes w2 url Direct buf pcm ctx Hw2 Hc2) as (w' & Hr & Hp & Hrt & _).
  rewrite Hl2, Hs2, Hd2 in *.
  exists w'. split.
  { change (run ([CallInit (Some dev) true; SinkBound (length (tasks w)) (Threw e)] ++
                 [CallPlayAudio url; Fetched (S (length (tasks w))) ok;
                  BodyRead (S (length (tasks w))) (Returned buf);
                  Decoded (S (length (tasks w))) (Returned pcm)]) w = Some w').
    rewrite run_app, Hr2. exact Hr. }
  split; [done|]. rewrite Hrt. unfold sinks_of. rewrite Ha2, omap_app.
  rewrite (sinks_of_fresh w); [|exact (ro_audios _ (reachable_route_ok _ Hw))].
  cbn. by rewrite Nat.eqb_refl.
Qed.

Lemma unbound_device_silences_next_play_witness :
  reachable (after [InitEffect true]) ∧
  ∃ w', run [CallInit (Some "D") true; SinkBound 0 (Threw SinkError); CallPlayAudio sample;
             Fetched 1 ok; BodyRead 1 (Returned []); Decoded 1 (Returned [2%Z])]
          (after [InitEffect true]) = Some w' ∧
    playing w' 0 = true ∧ routed_to w' 0 = [].
Proof.
  assert (Hr : reachable (after [InitEffect true])) by runs.
  split; [exact Hr|].
  assert (Hd : "D" ≠ "") by discriminate.
  exact (unbound_device_silences_next_play (after [InitEffect true]) "D" sample [] [2%Z]
           SinkError Hr Hd).
Defined.

(** X12: the route is taken when the clip lands, not when the play was
    called.  With a play suspended at its decode, a device is selected and
    its sink bound; when the decode then succeeds the clip sounds on the
    device just selected. *)
Theorem route_is_taken_at_landing (w : World) (t : nat) (buf : Bytes) (c : Caller)
  (dev : string) (pcm : Pcm) (Hw : reachable w) (Hdev : dev ≠ "")
  (Ht : tasks w !! t = Some (PlayTask (AwaitDecode buf) c)) :
  ∃ w', run [CallInit (Some dev) true; SinkBound (length (tasks w)) ok;
             Decoded t (Returned pcm)] w = Some w' ∧
    playing w' (length (sources (platform w))) = true ∧
    routed_to w' (length (sources (platform w))) = [dev].
Proof.
  assert (truthy (Some dev) = true) as Htr.
  { cbn. by apply negb_true_iff, String.eqb_neq. }
  destruct (init_then_answer w dev ok Htr)
    as (w2 & Hr2 & Hd2 & Ha2 & [ctx Hc2] & Hl2 & Hs2 & Hk).
  destruct (step_decoded w2 t buf c pcm ctx (Hk _ _ Ht) Hc2)
    as (w' & Hs & _ & Hp & _ & _ & _ & Hcon).
  rewrite Hs2, Hd2 in *.
  exists w'. split.
  { change (run ([CallInit (Some dev) true; SinkBound (length (tasks w)) ok] ++
                 [Decoded t (Returned pcm)]) w = Some w').
    rewrite run_app, Hr2. change (match step (Decoded t (Returned pcm)) w2 with Some w0 => Some w0 | None => None end = Some w'). by rewrite Hs. }
  split; [done|].
  pose proof (proj1 (step_sessions _ _ _ Hs) : routing_state _ = _) as Hrt.
  unfold routed_to. destruct (source_of w' (length (sources (platform w)))) as [nd|]; [|done].
  cbn in Hcon. injection Hcon as ->. cbn [map concat]. rewrite app_nil_r.
  rewrite (routing_state_sinks _ _ _ Hrt). unfold sinks_of. rewrite Ha2, omap_app.
  rewrite (sinks_of_fresh w); [|exact (ro_audios _ (reachable_route_ok _ Hw))].
  cbn. by rewrite Nat.eqb_refl.
Qed.

Lemma route_is_taken_at_landing_witness :
  reachable (after [InitEffect true; ClickPlay sample; Fetched 0 ok; BodyRead 0 (Returned [])]) ∧
  ∃ w', run [CallInit (Some "D") true; SinkBound 1 ok; Decoded 0 (Returned [1%Z])]
          (after [InitEffect true; ClickPlay sample; Fetched 0 ok; BodyRead 0 (Returned [])])
          = Some w' ∧
    playing w' 0 = true ∧ routed_to w' 0 = ["D"].
Proof.
  assert (Hr : reachable (after [InitEffect true; ClickPlay sample; Fetched 0 ok;
                                 BodyRead 0 (Returned [])])) by runs.
  split; [exact Hr|].
  assert (Hd : "D" ≠ "") by discriminate.
  exact (route_is_taken_at_landing _ 0 [] PlayClick "D" [1%Z] Hr Hd eq_refl).
Defined.

(** ** The output selector *)

Lemma option_label_nonempty d : option_label d ≠ "".
Proof.
  unfold option_label, truthy.
  destruct (String.eqb_spec (label d) "") as [He|Hne]; cbn; [discriminate | done].
Qed.

(** X13: the output selector.  Its first entry is the default output, with
    the empty value; every other entry stands for a device of kind
    audiooutput of the enumerated list (inputs are never offered) and every
    such device has its entry; no entry has an empty text, also when the
    platform withholds the label; and a failed enumeration leaves the
    entries as they were. *)
Theorem selector_offers_the_outputs (audioDevices : list MediaDeviceInfo) :
  head (output_options audioDevices) = Some ("", "Default Output") ∧
  (∀ v text, In (v, text) (tail (output_options audioDevices)) ↔
     ∃ d, In d audioDevices ∧ kind d = audiooutput ∧ v = deviceId d ∧
          text = (if String.eqb (label d) "" then String.append "Output Device " (deviceId d)
                  else label d)) ∧
  (∀ v text, In (v, text) (output_options audioDevices) → text ≠ "") ∧
  (∀ e, output_options (initDevices (Threw e) audioDevices) = output_options audioDevices) ∧
  (∀ devices, output_options (initDevices (Returned devices) audioDevices)
     = output_options devices).
Proof.
  split; [done|]. split; [|split; [|done]].
  - intros v text. cbn [output_options tail]. rewrite in_map_iff. split.
    + intros (d & [= <- <-] & Hin). apply filter_In in Hin as [Hin Hk].
      exists d. split; [done|]. split.
      { unfold is_audiooutput in Hk. by destruct (kind d). }
      split; [done|]. unfold option_label, truthy.
      by destruct (String.eqb (label d) "").
    + intros (d & Hin & Hk & -> & ->). exists d. split.
      { unfold option_label, truthy. by destruct (String.eqb (label d) ""). }
      apply filter_In. split; [done|]. unfold is_audiooutput. by rewrite Hk.
  - intros v text [[= <- <-]|Hin]; [discriminate|].
    apply in_map_iff in Hin as (d & [= <- <-] & _). apply option_label_nonempty.
Qed.

(** ** The recording handlers never throw *)

(** X14: neither recording handler can fail.  [handleStopRecording] returns
    normally in every reachable world; the promise of
    [handleStartRecording] is always fulfilled, never rejected.  When the
    microphone is refused nothing of the recording, of the playback or of
    the route changes.  When it is granted a new recorder, on a new stream,
    is recording, the ref names it, the chunk buffer is empty and
    [isRecording] is true. *)
Theorem recording_handlers_never_throw (w : World) (t : nat) (Hw : reachable w)
  (Ht : tasks w !! t = Some MicTask) :
  (∃ w', handleStopRecording w = (Returned tt, w')) ∧
  (∀ e, ∃ w', handleStartRecording_resume t (Threw e) w = Some (Resolved tt, w') ∧
     capture_state w' = capture_state w ∧
     playback_state w' = playback_state w ∧
     routing_state w' = routing_state w) ∧
  (∃ w', handleStartRecording_resume t ok w = Some (Resolved tt, w') ∧
     mediaRecorderRef (home w') = Some (length (recorders (platform w))) ∧
     is_recording w' (length (recorders (platform w))) = true ∧
     (r_stream <$> recorder_of w' (length (recorders (platform w))))
       = Some (length (streams (platform w))) ∧
     length (streams (platform w')) = S (length (streams (platform w))) ∧
     audioChunksRef (home w') = [] ∧
     isRecording (home w') = true).
Proof.
  pose proof (wf_recorder_ref _ (reachable_wf _ Hw)) as Hr.
  open_world w. change (ts !! t = Some MicTask) in Ht.
  change (∀ r, mrr = Some r → r < length recs) in Hr. repeat split.
  - unfold_code. destruct mrr as [r|]; [|eauto].
    specialize (Hr r eq_refl). apply lookup_lt_is_Some_2 in Hr as [rc Hrc].
    cbn. rewrite Hrc. destruct (r_state rc); eauto.
  - intros e. unfold_code. rewrite Ht. eauto.
  - unfold_code. rewrite Ht.
    repeat (progress (rewrite ?alter_snoc, ?lookup_snoc, ?length_app; cbn)).
    eexists; split; [reflexivity|].
    repeat (progress (rewrite ?alter_snoc, ?lookup_snoc, ?length_app; cbn)).
    repeat split; try done; lia.
Qed.

Lemma recording_handlers_never_throw_witness :
  reachable (after (tr_recording ++ [StartRecording])) ∧
  ∃ w', handleStartRecording_resume 1 (Threw PermissionError)
          (after (tr_recording ++ [StartRecording])) = Some (Resolved tt, w') ∧
        capture_state w' = capture_state (after (tr_recording ++ [StartRecording])).
Proof.
  assert (Hr : reachable (after (tr_recording ++ [StartRecording]))) by runs.
  split; [exact Hr|].
  destruct (proj1 (proj2 (recording_handlers_never_throw _ 1 Hr eq_refl)) PermissionError)
    as (w' & H1 & H2 & _).
  exists w'. split; [exact H1 | exact H2].
Defined.
